(** * abl_resistance: the notebooks' tabular pipeline and docking loop

    A shallow embedding of the two kinds of notebook in this repository:

    - [Klifs]: the "ATP and kinase conformations" notebook.  A KLIFS table is
      retrieved, narrowed by three boolean-mask filters, sorted, reduced to
      one row per PDB entry, and the chosen structures are written to disk
      and bucketed by their number of Mg atoms.
    - [Docking]: the "ABL1 complex modeling" notebook.  A dictionary of
      tyrosine kinase inhibitors is walked and each one is handed to the
      external docking featurizer.

    A pandas DataFrame is a list of rows in frame order; boolean masks,
    [groupby(..).filter], [sort_values] and [groupby(..).head] all keep or
    permute rows of that list.  Remote calls, the structure parser and the
    featurizer are parameters of the code that uses them. *)

From Stdlib Require Import List String Ascii Bool Arith ZArith QArith Lia.
From Stdlib Require Import Permutation Sorted RelationClasses.
Import ListNotations.

Open Scope string_scope.
Open Scope list_scope.

(** * Part I: the programs *)

(** ** Cell values

    KLIFS reports a ligand as its three-letter PDB code and writes the
    integer 0 where there is none, so the [ligand] and [allosteric_ligand]
    columns hold Python objects of either kind.  Python's [==] between an
    [int] and a [str] is [False]. *)

Inductive value : Type :=
| Int (z : Z)
| Str (s : string).

Definition value_eqb (a b : value) : bool :=
  match a, b with
  | Int x, Int y => Z.eqb x y
  | Str s, Str t => String.eqb s t
  | _, _ => false
  end.

Definition value_eq_dec (a b : value) : {a = b} + {a <> b}.
Proof. decide equality; [apply Z.eq_dec | apply string_dec]. Defined.

(** ** Comparators

    [sort_values] orders rows by several keys.  A key comparison is a
    three-way comparator; what sorting needs from it is collected in
    [Comparator]. *)

Class Comparator {A : Type} (cmp : A -> A -> comparison) : Prop := {
  cmp_antisym : forall x y, cmp y x = CompOpp (cmp x y);
  cmp_eq_compat : forall x y z, cmp x y = Eq -> cmp x z = cmp y z;
  cmp_lt_trans : forall x y z, cmp x y = Lt -> cmp y z = Lt -> cmp x z = Lt
}.

(** Lexicographic combination: the first key decides unless it ties. *)
Definition lex (c1 c2 : comparison) : comparison :=
  match c1 with
  | Eq => c2
  | _ => c1
  end.

(** Descending order on a key is the comparator with its arguments swapped. *)
Definition descending {A : Type} (cmp : A -> A -> comparison) : A -> A -> comparison :=
  fun x y => cmp y x.

Definition on_key {A K : Type} (key : A -> K) (cmp : K -> K -> comparison)
  : A -> A -> comparison :=
  fun x y => cmp (key x) (key y).

Definition lex_cmp {A : Type} (c1 c2 : A -> A -> comparison) : A -> A -> comparison :=
  fun x y => lex (c1 x y) (c2 x y).

(** ** DataFrame operations

    The pandas operations the notebook uses, over a frame given as the list
    of its rows in frame order. *)

Section Frame.
Context {A : Type}.

(** *** [sort_values]

    With several [by] columns pandas sorts with a stable lexsort: rows are
    put in non-decreasing key order and rows with equal keys keep their
    frame order.  A stable sort has one possible result; it is computed here
    by stable insertion, each row going in front of the first row of the
    already sorted rest that does not precede it. *)

Section Sort.
Variable cmp : A -> A -> comparison.

Definition cmp_le (x y : A) : Prop := cmp x y <> Gt.

Definition cmp_leb (x y : A) : bool :=
  match cmp x y with
  | Gt => false
  | _ => true
  end.

Fixpoint insert_row (x : A) (l : list A) : list A :=
  match l with
  | [] => [x]
  | y :: l' => if cmp_leb x y then x :: l else y :: insert_row x l'
  end.

Fixpoint sort_values (l : list A) : list A :=
  match l with
  | [] => []
  | x :: l' => insert_row x (sort_values l')
  end.

End Sort.

(** *** [groupby]

    Rows are grouped by the value of a key column.  [group t k] is the
    sub-frame of the rows with key [k]. *)

Section GroupBy.
Context {K : Type} (K_eq_dec : forall a b : K, {a = b} + {a <> b}).
Variable key : A -> K.

Definition key_is (k : K) (r : A) : bool :=
  if K_eq_dec (key r) k then true else false.

Definition group (t : list A) (k : K) : list A := filter (key_is k) t.

(** [groupby(key).filter(func)]: the rows, in frame order, of the groups for
    which [func] holds. *)
Definition groupby_filter (func : list A -> bool) (t : list A) : list A :=
  filter (fun r => func (group t (key r))) t.

(** [groupby(key).head(n)]: the rows whose running number within their group
    (pandas' cumcount) is below [n], in frame order.  [seen] holds the keys
    of the rows already passed. *)
Fixpoint cumcount_head (n : nat) (seen : list K) (t : list A) : list A :=
  match t with
  | [] => []
  | r :: t' =>
      if (count_occ K_eq_dec seen (key r) <? n)%nat
      then r :: cumcount_head n (key r :: seen) t'
      else cumcount_head n (key r :: seen) t'
  end.

Definition groupby_head (n : nat) (t : list A) : list A :=
  cumcount_head n [] t.

End GroupBy.
End Frame.

(** ** Files

    The loops of the notebook open files for writing and read them back.
    A disk maps a path to the text stored under it; [written] lists, in
    order, the paths opened for writing since the disk was [mount]ed, which
    is how a cell's own writes are told apart.  Paths are strings: the
    notebook joins a directory and a file name holding no separator, for
    which [pathlib]'s [/] is concatenation around one ["/"]. *)

Record disk : Type := {
  files : string -> option string;
  written : list string
}.

Definition mount (fs : string -> option string) : disk :=
  {| files := fs; written := [] |}.

(** [with open(path, 'w') as wf: wf.write(text)] *)
Definition write_text (d : disk) (path text : string) : disk :=
  {| files := fun q => if String.eqb q path then Some text else files d q;
     written := written d ++ [path] |}.

(** [directory / name] *)
Definition joinpath (directory name : string) : string :=
  (directory ++ "/" ++ name)%string.

(** No path separator occurs in [s]. *)
Fixpoint plain (s : string) : bool :=
  match s with
  | EmptyString => true
  | String c s' => negb (Ascii.eqb c "/") && plain s'
  end.

(** ** The ATP and kinase conformations notebook *)

Module Klifs.

(** *** The KLIFS table

    The columns of the retrieved table that the notebook reads.  Scores and
    resolutions are decimal numbers; PDB identifiers, alternate locations,
    chains and conformations are strings. *)

Record row : Type := {
  structure_ID : Z;
  pdb : string;
  alt : string;
  chain : string;
  ligand : value;
  allosteric_ligand : value;
  quality_score : Q;
  resolution : Q;
  DFG : string;
  aC_helix : string
}.

Definition table : Type := list row.

(** *** 1. Retrieve relevant kinase structures *)

(** [kinase_df[kinase_df["ligand"] == "ATP"]] *)
Definition filter_ATP (kinase_df : table) : table :=
  filter (fun r => value_eqb (ligand r) (Str "ATP")) kinase_df.

(** [set(x['ligand'])], as the list of its distinct members. *)
Definition ligand_set (x : table) : list value :=
  nodup value_eq_dec (map ligand x).

(** [lambda x: len(set(x['ligand'])) == 1] *)
Definition single_ligand (x : table) : bool :=
  (List.length (ligand_set x) =? 1)%nat.

(** [kinase_df.groupby('pdb').filter(lambda x: len(set(x['ligand'])) == 1)] *)
Definition filter_single_orthosteric (kinase_df : table) : table :=
  groupby_filter string_dec pdb single_ligand kinase_df.

(** [kinase_df[kinase_df["allosteric_ligand"] == 0]] *)
Definition filter_no_allosteric (kinase_df : table) : table :=
  filter (fun r => value_eqb (allosteric_ligand r) (Int 0)) kinase_df.

(** The three filter cells in notebook order. *)
Definition retrieve_relevant (kinase_df : table) : table :=
  filter_no_allosteric (filter_single_orthosteric (filter_ATP kinase_df)).

(** [by=['quality_score', 'resolution', 'alt', 'chain'],
     ascending=[False, True, True, True]] *)
Definition row_cmp : row -> row -> comparison :=
  lex_cmp (descending (on_key quality_score Qcompare))
    (lex_cmp (on_key resolution Qcompare)
       (lex_cmp (on_key alt String.compare)
          (on_key chain String.compare))).

(** [kinase_df.sort_values(..)], then [kinase_df.groupby('pdb').head(1)] *)
Definition pick_representative (kinase_df : table) : table :=
  groupby_head string_dec pdb 1 (sort_values row_cmp kinase_df).

(** *** 2. Analyze conformations *)

(** [kinase_df[kinase_df.DFG != 'na']] *)
Definition drop_na_DFG (kinase_df : table) : table :=
  filter (fun r => negb (String.eqb (DFG r) "na")) kinase_df.

(** [kinase_df] as it stands when section 3 of the notebook starts. *)
Definition kinase_df_final (retrieved : table) : table :=
  drop_na_DFG (pick_representative (retrieve_relevant retrieved)).

(** [kinase_df[kinase_df.aC_helix == "in"]] *)
Definition aC_helix_in (kinase_df : table) : table :=
  filter (fun r => String.eqb (aC_helix r) "in") kinase_df.

(** The rows that both loops of section 3 iterate over. *)
Definition processed (retrieved : table) : table :=
  aC_helix_in (kinase_df_final retrieved).

(** *** 3. Analyze Mg2+ ions *)

Record buckets : Type := {
  no_mg : list string;
  one_mg : list string;
  two_mg : list string;
  more_mg : list string
}.

Definition empty_buckets : buckets :=
  {| no_mg := []; one_mg := []; two_mg := []; more_mg := [] |}.

Section Cells.

(** The user's home directory, which [expanduser] puts in place of ["~"]. *)
Variable home : string.

(** [klifs_utils.remote.coordinates.complex._complex_pdb_text]: the PDB text
    KLIFS serves for a structure identifier. *)
Variable complex_pdb_text : Z -> string.

(** [len(mda.Universe(path).select_atoms("resname MG"))] as a function of the
    text stored under [path]. *)
Variable count_MG : string -> nat.

Definition expanduser (p : string) : string :=
  match p with
  | String "~" rest => (home ++ rest)%string
  | _ => p
  end.

Definition directory : string := expanduser "~/data/kinases/atp".
Definition directory_no_mg : string := expanduser "~/data/kinases/atp/no_mg".
Definition directory_one_mg : string := expanduser "~/data/kinases/atp/one_mg".
Definition directory_two_mg : string := expanduser "~/data/kinases/atp/two_mg".
Definition directory_more_mg : string := expanduser "~/data/kinases/atp/more_mg".

(** [f"{row['pdb']}.pdb"] *)
Definition pdb_file (r : row) : string := (pdb r ++ ".pdb")%string.

(** The first loop: every complex is fetched and stored under
    [directory / f"{row['pdb']}.pdb"]. *)
Fixpoint save_complexes (rows : table) (d : disk) : disk :=
  match rows with
  | [] => d
  | r :: rest =>
      let pdb_text := complex_pdb_text (structure_ID r) in
      let path := joinpath directory (pdb_file r) in
      save_complexes rest (write_text d path pdb_text)
  end.

(** The body of the second loop after [num_mg] is known: the PDB identifier
    is appended to one list and the target path is chosen. *)
Definition choose_bucket (num_mg : nat) (r : row) (b : buckets) : buckets * string :=
  if (num_mg =? 0)%nat then
    ({| no_mg := no_mg b ++ [pdb r]; one_mg := one_mg b;
        two_mg := two_mg b; more_mg := more_mg b |},
     joinpath directory_no_mg (pdb_file r))
  else if (num_mg =? 1)%nat then
    ({| no_mg := no_mg b; one_mg := one_mg b ++ [pdb r];
        two_mg := two_mg b; more_mg := more_mg b |},
     joinpath directory_one_mg (pdb_file r))
  else if (num_mg =? 2)%nat then
    ({| no_mg := no_mg b; one_mg := one_mg b;
        two_mg := two_mg b ++ [pdb r]; more_mg := more_mg b |},
     joinpath directory_two_mg (pdb_file r))
  else
    ({| no_mg := no_mg b; one_mg := one_mg b;
        two_mg := two_mg b; more_mg := more_mg b ++ [pdb r] |},
     joinpath directory_more_mg (pdb_file r)).

(** The second loop.  [mda.Universe(path)] reads the file stored by the
    first loop and raises when there is none, which ends the cell: [None]. *)
Fixpoint split_by_mg (rows : table) (b : buckets) (d : disk) : option (buckets * disk) :=
  match rows with
  | [] => Some (b, d)
  | r :: rest =>
      let path := joinpath directory (pdb_file r) in
      match files d path with
      | None => None
      | Some u =>
          let num_mg := count_MG u in
          let '(b', path') := choose_bucket num_mg r b in
          let pdb_text := complex_pdb_text (structure_ID r) in
          split_by_mg rest b' (write_text d path' pdb_text)
      end
  end.

(** The two cells of section 3, run one after the other on the files [fs]
    found on disk.  The result holds the four lists and the disk as the
    second cell leaves it. *)
Definition first_cell (retrieved : table) (fs : string -> option string) : disk :=
  save_complexes (processed retrieved) (mount fs).

Definition second_cell (retrieved : table) (fs : string -> option string)
  : option (buckets * disk) :=
  split_by_mg (processed retrieved) empty_buckets
    (mount (files (first_cell retrieved fs))).

End Cells.

(** *** What the cells show

    Every cell of section 1 ends by printing two counts of the frame it
    leaves; cells of section 2 list the PDB identifiers a mask selects; the
    last cell prints the sizes of the four lists. *)

(** [len(set(kinase_df['pdb']))] *)
Definition number_of_PDB_entries (kinase_df : table) : nat :=
  List.length (nodup string_dec (map pdb kinase_df)).

(** [len(kinase_df)] *)
Definition number_of_KLIFS_entries (kinase_df : table) : nat :=
  List.length kinase_df.

(** [kinase_df[kinase_df.DFG == 'na']['pdb']] *)
Definition na_DFG_pdbs (kinase_df : table) : list string :=
  map pdb (filter (fun r => String.eqb (DFG r) "na") kinase_df).

(** [list(kinase_df[kinase_df.aC_helix != "in"].pdb)] *)
Definition aC_helix_not_in_pdbs (kinase_df : table) : list string :=
  map pdb (filter (fun r => negb (String.eqb (aC_helix r) "in")) kinase_df).

(** [len(no_mg)], [len(one_mg)], [len(two_mg)], [len(more_mg)] *)
Definition bucket_sizes (b : buckets) : list nat :=
  [List.length (no_mg b); List.length (one_mg b); List.length (two_mg b);
   List.length (more_mg b)].

(** The four lists one after the other. *)
Definition all_buckets (b : buckets) : list string :=
  no_mg b ++ one_mg b ++ two_mg b ++ more_mg b.

(** *** Notions used in the statements *)

(** The survivor condition read on the retrieved table: ATP in the pocket,
    one distinct ligand among the retrieved rows of the same PDB entry, no
    allosteric ligand. *)
Definition clean_ATP_entry (retrieved : table) (r : row) : Prop :=
  ligand r = Str "ATP" /\
  List.length (ligand_set (group string_dec pdb retrieved (pdb r))) = 1%nat /\
  allosteric_ligand r = Int 0.

(** [better r' r]: [r'] has a higher quality score than [r], or the same
    score and a lower resolution, or the same of both and a smaller [alt],
    or the same of all three and a smaller [chain]. *)
Definition better (r' r : row) : Prop :=
  (quality_score r < quality_score r')%Q \/
  (quality_score r' == quality_score r /\
   ((resolution r' < resolution r)%Q \/
    (resolution r' == resolution r /\
     (String.compare (alt r') (alt r) = Lt \/
      (alt r' = alt r /\ String.compare (chain r') (chain r) = Lt))))).

(** Two rows agree on all four sort keys. *)
Definition same_sort_keys (r r' : row) : Prop :=
  quality_score r == quality_score r' /\
  resolution r == resolution r' /\
  alt r = alt r' /\
  chain r = chain r'.

(** No two rows of one PDB group agree on all four sort keys. *)
Definition no_ties (t : table) : Prop :=
  ForallOrdPairs (fun r r' => pdb r = pdb r' -> ~ same_sort_keys r r') t.

(** The row picked for PDB entry [p], if any. *)
Definition representative (t : table) (p : string) : option row :=
  find (fun r => String.eqb (pdb r) p) (pick_representative t).

(** [path] is the file of row [r] in one of the four bucket directories. *)
Definition in_bucket_directory (home : string) (r : row) (path : string) : Prop :=
  path = joinpath (directory_no_mg home) (pdb_file r) \/
  path = joinpath (directory_one_mg home) (pdb_file r) \/
  path = joinpath (directory_two_mg home) (pdb_file r) \/
  path = joinpath (directory_more_mg home) (pdb_file r).

(** The directory of the bucket for a structure with [n] Mg atoms. *)
Definition bucket_directory (home : string) (n : nat) : string :=
  match n with
  | 0%nat => directory_no_mg home
  | 1%nat => directory_one_mg home
  | 2%nat => directory_two_mg home
  | _ => directory_more_mg home
  end.

(** PDB identifiers hold no path separator. *)
Definition plain_pdb_ids (t : table) : Prop :=
  Forall (fun r => plain (pdb r) = true) t.

(** *** Sample data *)

Definition mk (sid : Z) (p a c : string) (lig allo : value) (q res : Q)
  (dfg ac : string) : row :=
  {| structure_ID := sid; pdb := p; alt := a; chain := c; ligand := lig;
     allosteric_ligand := allo; quality_score := q; resolution := res;
     DFG := dfg; aC_helix := ac |}.

Definition r_1atp_A : row :=
  mk 101 "1atp" "" "A" (Str "ATP") (Int 0) 9.6 2.2 "in" "in".
Definition r_1atp_B : row :=
  mk 102 "1atp" "" "B" (Str "ATP") (Int 0) 8 2.2 "in" "in".
Definition r_1atp_ADP : row :=
  mk 103 "1atp" "" "C" (Str "ADP") (Int 0) 9.8 2.2 "in" "in".
Definition r_3gni : row :=
  mk 201 "3gni" "A" "A" (Str "ATP") (Int 0) 8.4 1.9 "na" "in".
Definition r_2y4i : row :=
  mk 301 "2y4i" "" "C" (Str "ATP") (Int 0) 8 1.8 "out-like" "out".
Definition r_1s9j : row :=
  mk 401 "1s9j" "" "A" (Str "ATP") (Str "BBM") 9.2 2.4 "in" "out".
Definition r_apo : row :=
  mk 501 "1fin" "" "A" (Int 0) (Int 0) 9 2.3 "in" "in".
Definition r_2cch : row :=
  mk 601 "2cch" "B" "A" (Str "ATP") (Int 0) 9.2 1.7 "in" "in".
Definition r_2cch_alt : row :=
  mk 602 "2cch" "A" "A" (Str "ATP") (Int 0) 9.2 1.7 "in" "in".
Definition r_3qam : row :=
  mk 701 "3qam" "" "E" (Str "ATP") (Int 0) 9.6 1.9 "in" "in".

Definition sample : table :=
  [r_1atp_B; r_1atp_ADP; r_3gni; r_1atp_A; r_2y4i; r_1s9j; r_apo;
   r_2cch; r_2cch_alt; r_3qam].

(** A second chain of 3gni, of lower quality but with a DFG value. *)
Definition r_3gni_B : row :=
  mk 202 "3gni" "A" "B" (Str "ATP") (Int 0) 8 1.9 "in" "in".

(** Two chains of one entry that agree on all four sort keys. *)
Definition r_4fg8_first : row :=
  mk 801 "4fg8" "A" "B" (Str "ATP") (Int 0) 8 2.2 "na" "in".
Definition r_4fg8_second : row :=
  mk 802 "4fg8" "A" "B" (Str "ATP") (Int 0) 8 2.2 "na" "in".

(** A frame without ties, and the same rows in reverse frame order. *)
Definition untied : table :=
  [r_1atp_B; r_3gni; r_1atp_A; r_2y4i; r_2cch; r_2cch_alt; r_3qam].

(** One PDB entry with ATP in one chain and ADP in another. *)
Definition mixed_entry : table := [r_1atp_A; r_1atp_ADP].

(** A stand-in for the remote server and for the atom count. *)
Definition sample_pdb_text (sid : Z) : string :=
  if (sid =? 101)%Z then "HETATM MG MG A 401 HETATM MG MG A 402"
  else if (sid =? 701)%Z then "HETATM MG MG E 401"
  else "HETATM MN MN A 401".

Fixpoint sample_count_MG (text : string) : nat :=
  match text with
  | EmptyString => 0
  | String _ rest =>
      ((if prefix "HETATM MG" text then 1 else 0) + sample_count_MG rest)%nat
  end.

End Klifs.

(** ** The ABL1 complex modeling notebook *)

Module Docking.

(** *** KinoML objects *)

Module SmilesLigand.
Record t : Type := { smiles : string; name : string }.
End SmilesLigand.

Module BaseProtein.
(** [klifs_kinase_id] is an attribute set after construction. *)
Record t : Type := { name : string; klifs_kinase_id : option Z }.
Definition set_klifs_kinase_id (p : t) (id : Z) : t :=
  {| name := name p; klifs_kinase_id := Some id |}.
End BaseProtein.

Inductive component : Type :=
| Protein (p : BaseProtein.t)
| Ligand (l : SmilesLigand.t).

Record ProteinLigandComplex : Type := { components : list component }.

(** *** Dictionaries

    A Python [dict] keeps its items in insertion order, which is the order
    [keys()] walks them in; [d[k]] raises [KeyError] on a missing key. *)

Definition dict (V : Type) : Type := list (string * V).

Definition keys {V : Type} (d : dict V) : list string := map fst d.

Fixpoint getitem {V : Type} (d : dict V) (k : string) : option V :=
  match d with
  | [] => None
  | (k', v) :: d' => if String.eqb k' k then Some v else getitem d' k
  end.

(** [# smiles from chembl] *)
Definition tkis : dict (dict string) :=
  [ ("axitinib", [("smiles", "CNC(=O)c1ccccc1Sc1ccc2c(/C=C/c3ccccn3)n[nH]c2c1")]);
    ("bosutinib", [("smiles", "COc1cc(Nc2c(C#N)cnc3cc(OCCCN4CCN(C)CC4)c(OC)cc23)c(Cl)cc1Cl")]);
    ("dasatinib", [("smiles", "Cc1nc(Nc2ncc(C(=O)Nc3c(C)cccc3Cl)s2)cc(N2CCN(CCO)CC2)n1")]);
    ("imatinib", [("smiles", "Cc1ccc(NC(=O)c2ccc(CN3CCN(C)CC3)cc2)cc1Nc1nccc(-c2cccnc2)n1")]);
    ("nilotinib", [("smiles", "Cc1cn(-c2cc(NC(=O)c3ccc(C)c(Nc4nccc(-c5cccnc5)n4)c3)cc(C(F)(F)F)c2)cn1")]);
    ("ponatinib", [("smiles", "Cc1ccc(C(=O)Nc2ccc(CN3CCN(C)CC3)c(C(F)(F)F)c2)cc1C#Cc1cnc2cccnn12")]);
    ("erlotinib", [("smiles", "C#Cc1cccc(Nc2ncnc3cc(OCCOC)c(OCCOC)cc23)c1")]);
    ("gefitinib", [("smiles", "COc1cc2ncnc(Nc3ccc(F)c(Cl)c3)c2cc1OCCCN1CCOCC1")]) ].

(** *** The docking loop *)

Section Featurizer.

(** What [docking_featurizer.featurize] returns, and the call itself. *)
Variable System : Type.
Variable featurize : ProteinLigandComplex -> System.

(** The variables the loop binds. *)
Record namespace : Type := {
  tki : option string;
  smiles_ligand : option SmilesLigand.t;
  base_protein : option BaseProtein.t;
  kinase_ligand_complex : option ProteinLigandComplex;
  system : option System
}.

(** The notebook kernel: its variables, and the complexes handed to
    [featurize] so far, oldest first. *)
Record kernel : Type := {
  vars : namespace;
  featurize_calls : list ProteinLigandComplex
}.

Definition fresh_kernel : kernel :=
  {| vars := {| tki := None; smiles_ligand := None; base_protein := None;
                kinase_ligand_complex := None; system := None |};
     featurize_calls := [] |}.

(** One pass through the loop body with [tki] bound to [k]. *)
Definition loop_body (k : string) (st : kernel) : option kernel :=
  match getitem tkis k with
  | None => None
  | Some entry =>
      match getitem entry "smiles" with
      | None => None
      | Some s =>
          let smiles_ligand' := {| SmilesLigand.smiles := s; SmilesLigand.name := k |} in
          let base_protein' := {| BaseProtein.name := "ABL1";
                                  BaseProtein.klifs_kinase_id := None |} in
          let base_protein' := BaseProtein.set_klifs_kinase_id base_protein' 392 in
          let kinase_ligand_complex' :=
            {| components := [Protein base_protein'; Ligand smiles_ligand'] |} in
          let system' := featurize kinase_ligand_complex' in
          Some {| vars := {| tki := Some k;
                             smiles_ligand := Some smiles_ligand';
                             base_protein := Some base_protein';
                             kinase_ligand_complex := Some kinase_ligand_complex';
                             system := Some system' |};
                  featurize_calls := featurize_calls st ++ [kinase_ligand_complex'] |}
      end
  end.

Fixpoint for_each (ks : list string) (st : kernel) : option kernel :=
  match ks with
  | [] => Some st
  | k :: ks' =>
      match loop_body k st with
      | None => None
      | Some st' => for_each ks' st'
      end
  end.

(** [for tki in tkis.keys(): ...] *)
Definition docking_loop : option kernel := for_each (keys tkis) fresh_kernel.

End Featurizer.

Arguments tki {System}.
Arguments smiles_ligand {System}.
Arguments base_protein {System}.
Arguments kinase_ligand_complex {System}.
Arguments system {System}.
Arguments vars {System}.
Arguments featurize_calls {System}.

(** *** Notions used in the statements *)

(** The names of the eight inhibitors. *)
Definition tki_names : list string :=
  ["axitinib"; "bosutinib"; "dasatinib"; "imatinib"; "nilotinib"; "ponatinib";
   "erlotinib"; "gefitinib"].

(** The SMILES strings stored in [tkis]. *)
Definition tki_smiles : list string :=
  flat_map (fun item => map snd (snd item)) tkis.

(** The ligand of a complex, and the name it was given. *)
Definition ligands_of (c : ProteinLigandComplex) : list SmilesLigand.t :=
  flat_map (fun x => match x with Ligand l => [l] | Protein _ => [] end)
    (components c).

Definition proteins_of (c : ProteinLigandComplex) : list BaseProtein.t :=
  flat_map (fun x => match x with Protein p => [p] | Ligand _ => [] end)
    (components c).

Definition ligand_names (c : ProteinLigandComplex) : list string :=
  map SmilesLigand.name (ligands_of c).

(** How many of the calls docked the ligand named [k]. *)
Definition calls_for (k : string) (calls : list ProteinLigandComplex) : nat :=
  List.length (filter (fun c => if in_dec string_dec k (ligand_names c) then true else false) calls).

(** One [featurize] call for each of the eight inhibitors. *)
Definition once_per_ligand (calls : list ProteinLigandComplex) : Prop :=
  List.length calls = 8%nat /\
  Forall (fun k => calls_for k calls = 1%nat) tki_names.

(** A pass/fail outcome is recorded for each call: even when [featurize]
    itself answers pass or fail, some reading of the loop's variables gives
    back the outcome of every call. *)
Definition outcomes_recorded : Prop :=
  exists recall : namespace bool -> list bool,
    forall (featurize : ProteinLigandComplex -> bool) (st : kernel bool),
      docking_loop bool featurize = Some st ->
      recall (vars st) = map featurize (featurize_calls st).

(** Both together: one call per inhibitor, and an outcome kept for each. *)
Definition featurized_once_and_recorded : Prop :=
  (forall (System : Type) (featurize : ProteinLigandComplex -> System),
     exists st, docking_loop System featurize = Some st /\
                once_per_ligand (featurize_calls st)) /\
  outcomes_recorded.

(** The target of a complex is ABL1, KLIFS kinase 392. *)
Definition targets_ABL1 (c : ProteinLigandComplex) : Prop :=
  exists p, proteins_of c = [p] /\
            BaseProtein.name p = "ABL1" /\
            BaseProtein.klifs_kinase_id p = Some 392%Z.

(** The ligand of a complex is given by one of the SMILES strings of [tkis]. *)
Definition docks_a_tki (c : ProteinLigandComplex) : Prop :=
  exists l, ligands_of c = [l] /\ In (SmilesLigand.smiles l) tki_smiles.

(** A featurizer that fails on axitinib alone, and one that never fails. *)
Definition fails_on_axitinib (c : ProteinLigandComplex) : bool :=
  if in_dec string_dec "axitinib" (ligand_names c) then false else true.

Definition always_passes (c : ProteinLigandComplex) : bool := true.

(** *** The loop over any dictionary

    The loop cell reads [tkis] from the cell before it.  Two of the
    notebooks store [{'smiles': ...}] under every name and walk [keys()];
    the notebook with water stores the SMILES string itself and walks
    [items()]. *)

(** [# smiles from chembl], as the notebook with water has it. *)
Definition tkis_with_water : dict string :=
  [ ("axitinib", "CNC(=O)c1ccccc1Sc1ccc2c(/C=C/c3ccccn3)n[nH]c2c1");
    ("bosutinib", "COc1cc(Nc2c(C#N)cnc3cc(OCCCN4CCN(C)CC4)c(OC)cc23)c(Cl)cc1Cl");
    ("dasatinib", "Cc1nc(Nc2ncc(C(=O)Nc3c(C)cccc3Cl)s2)cc(N2CCN(CCO)CC2)n1");
    ("imatinib", "Cc1ccc(NC(=O)c2ccc(CN3CCN(C)CC3)cc2)cc1Nc1nccc(-c2cccnc2)n1");
    ("nilotinib", "Cc1cn(-c2cc(NC(=O)c3ccc(C)c(Nc4nccc(-c5cccnc5)n4)c3)cc(C(F)(F)F)c2)cn1");
    ("ponatinib", "Cc1ccc(C(=O)Nc2ccc(CN3CCN(C)CC3)c(C(F)(F)F)c2)cc1C#Cc1cnc2cccnn12");
    ("erlotinib", "C#Cc1cccc(Nc2ncnc3cc(OCCOC)c(OCCOC)cc23)c1");
    ("gefitinib", "COc1cc2ncnc(Nc3ccc(F)c(Cl)c3)c2cc1OCCCN1CCOCC1") ].

Section AnyDictionary.

Variable System : Type.
Variable featurize : ProteinLigandComplex -> System.

(** The complex the body builds for the inhibitor [k] with SMILES [s]. *)
Definition abl1_complex (k s : string) : ProteinLigandComplex :=
  let smiles_ligand' := {| SmilesLigand.smiles := s; SmilesLigand.name := k |} in
  let base_protein' := {| BaseProtein.name := "ABL1";
                          BaseProtein.klifs_kinase_id := None |} in
  let base_protein' := BaseProtein.set_klifs_kinase_id base_protein' 392 in
  {| components := [Protein base_protein'; Ligand smiles_ligand'] |}.

(** One pass of the [items()] loop: nothing in it can miss a key. *)
Definition loop_body_items (item : string * string) (st : kernel System)
  : kernel System :=
  let '(k, s) := item in
  let smiles_ligand' := {| SmilesLigand.smiles := s; SmilesLigand.name := k |} in
  let base_protein' := {| BaseProtein.name := "ABL1";
                          BaseProtein.klifs_kinase_id := None |} in
  let base_protein' := BaseProtein.set_klifs_kinase_id base_protein' 392 in
  let kinase_ligand_complex' :=
    {| components := [Protein base_protein'; Ligand smiles_ligand'] |} in
  let system' := featurize kinase_ligand_complex' in
  {| vars := {| tki := Some k;
                smiles_ligand := Some smiles_ligand';
                base_protein := Some base_protein';
                kinase_ligand_complex := Some kinase_ligand_complex';
                system := Some system' |};
     featurize_calls := featurize_calls st ++ [kinase_ligand_complex'] |}.

(** [for tki, smiles in tkis.items(): ...] *)
Definition docking_loop_items (tkis : dict string) : kernel System :=
  fold_left (fun st item => loop_body_items item st) tkis (fresh_kernel System).

(** One pass of the [keys()] loop over the dictionary [tkis]. *)
Definition loop_body_keys (tkis : dict (dict string)) (k : string)
  (st : kernel System) : option (kernel System) :=
  match getitem tkis k with
  | None => None
  | Some entry =>
      match getitem entry "smiles" with
      | None => None
      | Some s => Some (loop_body_items (k, s) st)
      end
  end.

Fixpoint for_each_key (tkis : dict (dict string)) (ks : list string)
  (st : kernel System) : option (kernel System) :=
  match ks with
  | [] => Some st
  | k :: ks' =>
      match loop_body_keys tkis k st with
      | None => None
      | Some st' => for_each_key tkis ks' st'
      end
  end.

(** [for tki in tkis.keys(): ...] *)
Definition docking_loop_keys (tkis : dict (dict string)) : option (kernel System) :=
  for_each_key tkis (keys tkis) (fresh_kernel System).

End AnyDictionary.

(** An entry of a [keys()] dictionary and an item of an [items()] dictionary
    name the same inhibitor with the same SMILES string. *)
Definition same_tki (entry : string * dict string) (item : string * string) : Prop :=
  fst entry = fst item /\ getitem (snd entry) "smiles" = Some (snd item).

(** A dictionary with an entry that lacks its SMILES string. *)
Definition tkis_missing_smiles : dict (dict string) :=
  [ ("imatinib", [("smiles", "Cc1ccc(NC(=O)c2ccc(CN3CCN(C)CC3)cc2)cc1Nc1nccc(-c2cccnc2)n1")]);
    ("asciminib", [("chembl", "CHEMBL4208229")]);
    ("nilotinib", [("smiles", "Cc1cn(-c2cc(NC(=O)c3ccc(C)c(Nc4nccc(-c5cccnc5)n4)c3)cc(C(F)(F)F)c2)cn1")]) ].

End Docking.

(** * Part II: what holds of them *)

(** ** Comparators *)

Section ComparatorFacts.
Context {A : Type} (cmp : A -> A -> comparison) `{!Comparator cmp}.

Lemma cmp_refl x : cmp x x = Eq.
Proof.
  pose proof (cmp_antisym (cmp:=cmp) x x) as H.
  destruct (cmp x x); simpl in H; congruence.
Qed.

Lemma cmp_eq_sym x y : cmp x y = Eq -> cmp y x = Eq.
Proof. intro H. rewrite (cmp_antisym (cmp:=cmp) x y), H. reflexivity. Qed.

Lemma cmp_eq_compat_r x y z : cmp x y = Eq -> cmp z x = cmp z y.
Proof.
  intro H. rewrite (cmp_antisym (cmp:=cmp) x z), (cmp_antisym (cmp:=cmp) y z).
  f_equal. now apply (cmp_eq_compat (cmp:=cmp)).
Qed.

Lemma cmp_gt_lt x y : cmp x y = Gt <-> cmp y x = Lt.
Proof.
  rewrite (cmp_antisym (cmp:=cmp) x y). destruct (cmp x y); simpl; split; congruence.
Qed.

Lemma cmp_le_trans x y z : cmp x y <> Gt -> cmp y z <> Gt -> cmp x z <> Gt.
Proof.
  intros Hxy Hyz.
  destruct (cmp x y) eqn:Exy; [ | | congruence ].
  - now rewrite (cmp_eq_compat (cmp:=cmp) x y z Exy).
  - destruct (cmp y z) eqn:Eyz; [ | | congruence ].
    + rewrite <- (cmp_eq_compat_r y z x Eyz), Exy. discriminate.
    + rewrite (cmp_lt_trans (cmp:=cmp) x y z Exy Eyz). discriminate.
Qed.

Lemma cmp_total x y : cmp x y <> Gt \/ cmp y x <> Gt.
Proof.
  rewrite (cmp_antisym (cmp:=cmp) x y). destruct (cmp x y); simpl;
    [left | left | right]; discriminate.
Qed.
End ComparatorFacts.

Lemma descending_Comparator {A} (cmp : A -> A -> comparison)
  `{!Comparator cmp} : Comparator (descending cmp).
Proof.
  unfold descending. split; intros.
  - apply cmp_antisym.
  - now apply (cmp_eq_compat_r cmp), (cmp_eq_sym cmp).
  - eapply cmp_lt_trans; eauto.
Qed.

Lemma on_key_Comparator {A K} (key : A -> K) (cmp : K -> K -> comparison)
  `{!Comparator cmp} : Comparator (on_key key cmp).
Proof.
  unfold on_key. split; intros.
  - apply cmp_antisym.
  - now apply cmp_eq_compat.
  - eapply cmp_lt_trans; eauto.
Qed.

Lemma lex_Comparator {A} (c1 c2 : A -> A -> comparison)
  `{!Comparator c1} `{!Comparator c2} : Comparator (lex_cmp c1 c2).
Proof.
  unfold lex_cmp, lex. split.
  - intros x y. rewrite (cmp_antisym (cmp:=c1) x y), (cmp_antisym (cmp:=c2) x y).
    destruct (c1 x y); reflexivity.
  - intros x y z H.
    destruct (c1 x y) eqn:E1; try discriminate.
    rewrite (cmp_eq_compat x y z E1), (cmp_eq_compat x y z H). reflexivity.
  - intros x y z Hxy Hyz.
    destruct (c1 x y) eqn:Exy; try discriminate.
    + rewrite (cmp_eq_compat x y z Exy).
      destruct (c1 y z) eqn:Eyz; try discriminate; auto.
      eapply cmp_lt_trans; eauto.
    + destruct (c1 y z) eqn:Eyz; try discriminate.
      * now rewrite <- (cmp_eq_compat_r c1 y z x Eyz), Exy.
      * now rewrite (cmp_lt_trans x y z Exy Eyz).
Qed.

(** The two key types of the notebook: numbers and strings. *)

#[export] Instance Qcompare_Comparator : Comparator Qcompare.
Proof.
  split.
  - intros x y. symmetry. apply Qcompare_antisym.
  - intros x y z H. apply Qeq_alt in H. now rewrite H.
  - intros x y z Hxy Hyz. apply Qlt_alt in Hxy, Hyz. apply Qlt_alt.
    eapply Qlt_trans; eauto.
Qed.

Lemma ascii_compare_lt_trans (a b c : ascii) :
  Ascii.compare a b = Lt -> Ascii.compare b c = Lt -> Ascii.compare a c = Lt.
Proof.
  unfold Ascii.compare. rewrite !N.compare_lt_iff. apply N.lt_trans.
Qed.

Lemma string_compare_lt_trans (s t u : string) :
  String.compare s t = Lt -> String.compare t u = Lt -> String.compare s u = Lt.
Proof.
  revert t u. induction s as [|a s IH]; intros [|b t] [|c u]; simpl;
    try discriminate; auto.
  destruct (Ascii.compare a b) eqn:Eab; try discriminate.
  - apply Ascii.compare_eq_iff in Eab. subst b.
    destruct (Ascii.compare a c) eqn:Eac; try discriminate; auto.
    intros. eapply IH; eauto.
  - destruct (Ascii.compare b c) eqn:Ebc; try discriminate.
    + apply Ascii.compare_eq_iff in Ebc. subst c. now rewrite Eab.
    + now rewrite (ascii_compare_lt_trans a b c Eab Ebc).
Qed.

#[export] Instance string_compare_Comparator : Comparator String.compare.
Proof.
  split.
  - intros x y. apply String.compare_antisym.
  - intros x y z H. apply String.compare_eq_iff in H. now subst.
  - apply string_compare_lt_trans.
Qed.

(** ** DataFrame operations *)

Section FrameFacts.
Context {A : Type}.

Section SortFacts.
Variable cmp : A -> A -> comparison.

Lemma cmp_leb_le x y : cmp_leb cmp x y = true <-> cmp_le cmp x y.
Proof.
  unfold cmp_leb, cmp_le. destruct (cmp x y); split; congruence.
Qed.

Lemma insert_row_perm x l : Permutation (x :: l) (insert_row cmp x l).
Proof.
  induction l as [|y l IH]; simpl; auto.
  destruct (cmp_leb cmp x y); auto.
  rewrite perm_swap. now constructor.
Qed.

Lemma sort_values_perm l : Permutation l (sort_values cmp l).
Proof.
  induction l as [|x l IH]; simpl; auto.
  rewrite <- insert_row_perm. now constructor.
Qed.

Lemma sort_values_In l x : In x (sort_values cmp l) <-> In x l.
Proof.
  split; apply Permutation_in;
    [symmetry|]; apply sort_values_perm.
Qed.

Context `{!Comparator cmp}.

Lemma insert_row_sorted x l :
  StronglySorted (cmp_le cmp) l -> StronglySorted (cmp_le cmp) (insert_row cmp x l).
Proof.
  induction 1 as [|y l Hs IH Hy]; simpl.
  - repeat constructor.
  - destruct (cmp_leb cmp x y) eqn:E.
    + apply cmp_leb_le in E. constructor.
      * now constructor.
      * constructor; auto.
        eapply Forall_impl; [|exact Hy].
        intros z Hz. eapply (cmp_le_trans cmp); eauto.
    + constructor; auto.
      apply (Permutation_Forall (insert_row_perm x l)).
      constructor; auto.
      destruct (cmp_total cmp x y) as [H|H]; auto.
      apply cmp_leb_le in H. congruence.
Qed.

Lemma sort_values_sorted l : StronglySorted (cmp_le cmp) (sort_values cmp l).
Proof.
  induction l; simpl; [constructor | now apply insert_row_sorted].
Qed.

Lemma StronglySorted_after l1 x l2 :
  StronglySorted (cmp_le cmp) (l1 ++ x :: l2) -> Forall (cmp_le cmp x) l2.
Proof.
  induction l1 as [|y l1 IH]; simpl; intro H.
  - now apply StronglySorted_inv in H.
  - apply IH. now apply StronglySorted_inv in H.
Qed.

End SortFacts.

Section GroupByFacts.
Context {K : Type} (K_eq_dec : forall a b : K, {a = b} + {a <> b}).
Variable key : A -> K.

Lemma key_is_true k r : key_is K_eq_dec key k r = true <-> key r = k.
Proof. unfold key_is. destruct (K_eq_dec (key r) k); split; congruence. Qed.

Lemma group_In t k r : In r (group K_eq_dec key t k) <-> In r t /\ key r = k.
Proof. unfold group. now rewrite filter_In, key_is_true. Qed.

Lemma first_of_group seen k :
  (count_occ K_eq_dec seen k <? 1)%nat = true <-> ~ In k seen.
Proof.
  rewrite Nat.ltb_lt, (count_occ_not_In K_eq_dec). lia.
Qed.

Lemma cumcount_head_first seen t r :
  In r (cumcount_head K_eq_dec key 1 seen t) ->
  ~ In (key r) seen /\
  exists l1 l2, t = l1 ++ r :: l2 /\ ~ In (key r) (map key l1).
Proof.
  revert seen. induction t as [|x t IH]; simpl; intros seen H; [tauto|].
  destruct (count_occ K_eq_dec seen (key x) <? 1)%nat eqn:E.
  - destruct H as [->|H].
    + apply first_of_group in E. split; auto.
      exists [], t. simpl. tauto.
    + apply IH in H. destruct H as (Hs & l1 & l2 & -> & Hl).
      simpl in Hs. split; [tauto|].
      exists (x :: l1), l2. simpl. split; auto. intuition congruence.
  - apply IH in H. destruct H as (Hs & l1 & l2 & -> & Hl).
    simpl in Hs. split; [tauto|].
    exists (x :: l1), l2. simpl. split; auto. intuition congruence.
Qed.

Lemma cumcount_head_incl n seen t r :
  In r (cumcount_head K_eq_dec key n seen t) -> In r t.
Proof.
  revert seen. induction t as [|x t IH]; simpl; intros seen H; auto.
  destruct (count_occ K_eq_dec seen (key x) <? n)%nat; simpl in H;
    intuition eauto.
Qed.

Lemma cumcount_head_covers seen t r :
  In r t -> ~ In (key r) seen ->
  exists r0, In r0 (cumcount_head K_eq_dec key 1 seen t) /\ key r0 = key r.
Proof.
  revert seen. induction t as [|x t IH]; simpl; intros seen H Hs; [tauto|].
  destruct (count_occ K_eq_dec seen (key x) <? 1)%nat eqn:E.
  - destruct (K_eq_dec (key x) (key r)) as [Hk|Hk].
    + exists x. simpl. auto.
    + destruct H as [->|H]; [congruence|].
      destruct (IH (key x :: seen) H) as (r0 & H0 & Hr0).
      * simpl. intuition.
      * exists r0. simpl. auto.
  - assert (Hx : In (key x) seen).
    { destruct (in_dec K_eq_dec (key x) seen) as [|n]; auto.
      apply first_of_group in n. congruence. }
    destruct H as [->|H]; [tauto|].
    apply (IH (key x :: seen) H). simpl. intuition congruence.
Qed.

Lemma cumcount_head_NoDup seen t :
  NoDup (map key (cumcount_head K_eq_dec key 1 seen t)).
Proof.
  revert seen. induction t as [|x t IH]; simpl; intros seen; [constructor|].
  destruct (count_occ K_eq_dec seen (key x) <? 1)%nat; auto.
  simpl. constructor; auto.
  rewrite in_map_iff. intros (r & Hk & Hr).
  apply cumcount_head_first in Hr. simpl in Hr. intuition.
Qed.

(** Rows with pairwise distinct keys stay so under any boolean mask. *)
Lemma NoDup_key_filter (f : A -> bool) t :
  NoDup (map key t) -> NoDup (map key (filter f t)).
Proof.
  induction t as [|x t IH]; simpl; intro H; [constructor|].
  inversion H as [|? ? Hx Ht]; subst.
  destruct (f x); simpl; auto.
  constructor; auto.
  rewrite in_map_iff in *. intros (r & Hk & Hr).
  apply Hx. exists r. apply filter_In in Hr. tauto.
Qed.

Lemma NoDup_key_inj t r1 r2 :
  NoDup (map key t) -> In r1 t -> In r2 t -> key r1 = key r2 -> r1 = r2.
Proof.
  induction t as [|x t IH]; simpl; intros H H1 H2 Hk; [tauto|].
  inversion H as [|? ? Hx Ht]; subst.
  destruct H1 as [->|H1], H2 as [->|H2]; auto.
  - exfalso. apply Hx. rewrite Hk. now apply in_map.
  - exfalso. apply Hx. rewrite <- Hk. now apply in_map.
Qed.

End GroupByFacts.
End FrameFacts.

(** The head of every group of a sorted frame is a least row of its group,
    and every group has one. *)
Section SortThenHead.
Context {A K : Type} (K_eq_dec : forall a b : K, {a = b} + {a <> b}).
Variables (key : A -> K) (cmp : A -> A -> comparison).
Context `{!Comparator cmp}.

Lemma sorted_head_least t r :
  In r (groupby_head K_eq_dec key 1 (sort_values cmp t)) ->
  In r t /\ forall r', In r' t -> key r' = key r -> cmp r r' <> Gt.
Proof.
  intro H. split.
  - apply (sort_values_In cmp). eapply cumcount_head_incl; eauto.
  - intros r' Hr' Hk.
    apply cumcount_head_first in H. destruct H as (_ & l1 & l2 & E & Hl1).
    pose proof (sort_values_sorted cmp t) as Hs. rewrite E in Hs.
    apply (sort_values_In cmp) in Hr'. rewrite E in Hr'.
    apply in_app_or in Hr'. destruct Hr' as [Hr'|[->|Hr']].
    + exfalso. apply Hl1. rewrite <- Hk. now apply in_map.
    + rewrite (cmp_refl cmp). discriminate.
    + apply StronglySorted_after in Hs.
      rewrite Forall_forall in Hs. now apply Hs.
Qed.

Lemma sorted_head_covers t r :
  In r t ->
  exists r0, In r0 (groupby_head K_eq_dec key 1 (sort_values cmp t)) /\
             key r0 = key r.
Proof.
  intro H. apply cumcount_head_covers; auto.
  now apply (sort_values_In cmp).
Qed.

End SortThenHead.

(** ** Strings and paths *)

Lemma append_assoc (a b c : string) :
  ((a ++ b) ++ c = a ++ (b ++ c))%string.
Proof. induction a as [|x a IH]; simpl; congruence. Qed.

Lemma append_inj_l (a x y : string) :
  (a ++ x = a ++ y)%string -> x = y.
Proof. induction a as [|c a IH]; simpl; intro H; auto. injection H. auto. Qed.

Lemma length_append (a b : string) :
  String.length (a ++ b) = (String.length a + String.length b)%nat.
Proof. induction a as [|c a IH]; simpl; congruence. Qed.

Lemma append_inj_r (x y s : string) :
  (x ++ s = y ++ s)%string -> x = y.
Proof.
  revert y. induction x as [|c x IH]; intros [|c' y] H; simpl in H; auto.
  - apply (f_equal String.length) in H. simpl in H.
    rewrite length_append in H. lia.
  - apply (f_equal String.length) in H. simpl in H.
    rewrite length_append in H. lia.
  - injection H as -> H. f_equal. auto.
Qed.

Lemma plain_append (a b : string) :
  plain (a ++ b) = plain a && plain b.
Proof.
  induction a as [|c a IH]; simpl; auto.
  rewrite IH. now rewrite andb_assoc.
Qed.

Lemma joinpath_inj (d n n' : string) :
  joinpath d n = joinpath d n' -> n = n'.
Proof.
  unfold joinpath. intro H. apply append_inj_l in H.
  simpl in H. congruence.
Qed.

(** ** Writing files *)

Lemma write_text_same d path text : files (write_text d path text) path = Some text.
Proof. simpl. now rewrite String.eqb_refl. Qed.

Lemma write_text_other d path text q :
  q <> path -> files (write_text d path text) q = files d q.
Proof. intro H. simpl. apply String.eqb_neq in H. now rewrite H. Qed.

Lemma write_text_keeps d path text q :
  files d q <> None -> files (write_text d path text) q <> None.
Proof. simpl. destruct (String.eqb q path); [discriminate | auto]. Qed.

(** ** Lists *)

Lemma filter_all {A : Type} (f : A -> bool) (l : list A) :
  (forall x, In x l -> f x = true) -> filter f l = l.
Proof.
  induction l as [|x l IH]; simpl; intro H; auto.
  rewrite (H x (or_introl eq_refl)). f_equal. auto.
Qed.

Lemma nodup_constant {A : Type} (dec : forall a b : A, {a = b} + {a <> b})
  (a : A) (l : list A) :
  l <> [] -> (forall x, In x l -> x = a) -> nodup dec l = [a].
Proof.
  induction l as [|x l IH]; intros Hne Hall; [congruence|].
  simpl. assert (x = a) as -> by (apply Hall; simpl; auto).
  destruct l as [|y l].
  - reflexivity.
  - destruct (in_dec dec a (y :: l)) as [_|Hn].
    + apply IH; [discriminate|]. intros z Hz. apply Hall. simpl. auto.
    + exfalso. apply Hn. left. apply Hall. simpl. auto.
Qed.

Lemma value_eqb_eq (a b : value) : value_eqb a b = true <-> a = b.
Proof.
  destruct a as [x|s], b as [y|t]; simpl; split; intro H;
    try discriminate; try congruence.
  - apply Z.eqb_eq in H. now subst.
  - injection H as ->. apply Z.eqb_refl.
  - apply String.eqb_eq in H. now subst.
  - injection H as ->. apply String.eqb_refl.
Qed.

(** ** More on sorting and group heads *)

Section SortStable.
Context {A : Type} (cmp : A -> A -> comparison) `{!Comparator cmp}.

Lemma insert_row_least x l :
  Forall (cmp_le cmp x) l -> insert_row cmp x l = x :: l.
Proof.
  destruct l as [|y l]; simpl; auto.
  intro H. apply Forall_inv in H. apply cmp_leb_le in H. now rewrite H.
Qed.

(** A frame that is already in order is left as it is. *)
Lemma sort_values_sorted_id l :
  StronglySorted (cmp_le cmp) l -> sort_values cmp l = l.
Proof.
  induction 1 as [|x l Hs IH Hx]; simpl; auto.
  rewrite IH. now apply insert_row_least.
Qed.

Lemma Forall_filter_keep (P : A -> Prop) (f : A -> bool) l :
  Forall P l -> Forall P (filter f l).
Proof.
  rewrite !Forall_forall. intros H x Hx. apply filter_In in Hx. apply H. tauto.
Qed.

Lemma filter_insert_row (f : A -> bool) x l :
  StronglySorted (cmp_le cmp) l ->
  filter f (insert_row cmp x l) =
  if f x then insert_row cmp x (filter f l) else filter f l.
Proof.
  induction 1 as [|y l Hs IH Hy]; simpl.
  - destruct (f x); reflexivity.
  - destruct (cmp_leb cmp x y) eqn:E; simpl.
    + destruct (f x) eqn:Fx; auto.
      symmetry. apply insert_row_least.
      apply cmp_leb_le in E.
      assert (Hall : Forall (cmp_le cmp x) (y :: l)).
      { constructor; auto. eapply Forall_impl; [|exact Hy].
        intros z Hz. eapply (cmp_le_trans cmp); eauto. }
      apply (Forall_filter_keep _ f) in Hall. exact Hall.
    + rewrite IH. destruct (f y) eqn:Fy; destruct (f x) eqn:Fx; simpl;
        rewrite ?E; reflexivity.
Qed.

(** The sort is stable: a mask picks the same rows, in the same order,
    before and after it. *)
Lemma filter_sort_values (f : A -> bool) l :
  filter f (sort_values cmp l) = sort_values cmp (filter f l).
Proof.
  induction l as [|x l IH]; simpl; auto.
  rewrite filter_insert_row by apply (sort_values_sorted cmp).
  rewrite IH. destruct (f x); reflexivity.
Qed.

End SortStable.

Section GroupHeads.
Context {A K : Type} (K_eq_dec : forall a b : K, {a = b} + {a <> b}).
Variable key : A -> K.

Lemma cumcount_head_distinct seen t :
  NoDup (map key t) -> (forall r, In r t -> ~ In (key r) seen) ->
  cumcount_head K_eq_dec key 1 seen t = t.
Proof.
  revert seen. induction t as [|x t IH]; simpl; intros seen Hn Hs; auto.
  inversion Hn as [|? ? Hx Ht]; subst.
  assert (E : (count_occ K_eq_dec seen (key x) <? 1)%nat = true).
  { apply first_of_group. apply Hs. auto. }
  rewrite E. f_equal. apply IH; auto.
  intros r Hr [Hk|Hk].
  - apply Hx. rewrite Hk. now apply in_map.
  - apply (Hs r); auto.
Qed.

Lemma cumcount_head_sorted (R : A -> A -> Prop) n seen t :
  StronglySorted R t -> StronglySorted R (cumcount_head K_eq_dec key n seen t).
Proof.
  intro H. revert seen. induction H as [|x t Hs IH Hx]; simpl; intro seen.
  - constructor.
  - destruct (count_occ K_eq_dec seen (key x) <? n)%nat; auto.
    constructor; auto.
    rewrite Forall_forall in *. intros r Hr. apply Hx.
    eapply cumcount_head_incl; eauto.
Qed.

Lemma cumcount_head_length n seen t :
  (List.length (cumcount_head K_eq_dec key n seen t) <= List.length t)%nat.
Proof.
  revert seen. induction t as [|x t IH]; simpl; intro seen; auto.
  destruct (count_occ K_eq_dec seen (key x) <? n)%nat; simpl.
  - apply le_n_S, IH.
  - apply Nat.le_trans with (List.length t); auto.
Qed.

Lemma find_cumcount_head k seen t :
  ~ In k seen ->
  find (key_is K_eq_dec key k) (cumcount_head K_eq_dec key 1 seen t) =
  find (key_is K_eq_dec key k) t.
Proof.
  revert seen. induction t as [|x t IH]; simpl; intros seen Hk; auto.
  destruct (count_occ K_eq_dec seen (key x) <? 1)%nat eqn:E; simpl.
  - destruct (key_is K_eq_dec key k x) eqn:Ek; auto.
    apply IH. intros [H|H]; auto.
    apply (key_is_true K_eq_dec key) in H. congruence.
  - destruct (key_is K_eq_dec key k x) eqn:Ek.
    + apply key_is_true in Ek.
      assert (Hn : ~ In (key x) seen) by congruence.
      apply (proj2 (first_of_group K_eq_dec seen (key x))) in Hn. congruence.
    + apply IH. intros [H|H]; auto.
      apply (key_is_true K_eq_dec key) in H. congruence.
Qed.

End GroupHeads.

Lemma find_hd_filter {A : Type} (f : A -> bool) (l : list A) :
  find f l = hd_error (filter f l).
Proof.
  induction l as [|x l IH]; simpl; auto. destruct (f x); auto.
Qed.

Lemma mask_partition {A : Type} (f : A -> bool) (l : list A) :
  Permutation (filter f l ++ filter (fun x => negb (f x)) l) l.
Proof.
  induction l as [|x l IH]; simpl; auto.
  destruct (f x); simpl.
  - now constructor.
  - symmetry. apply Permutation_cons_app. now symmetry.
Qed.

Lemma filter_length_le {A : Type} (f : A -> bool) (l : list A) :
  (List.length (filter f l) <= List.length l)%nat.
Proof.
  induction l as [|x l IH]; simpl; auto.
  destruct (f x); simpl; lia.
Qed.

Lemma filter_filter {A : Type} (f g : A -> bool) (l : list A) :
  filter f (filter g l) = filter (fun x => g x && f x) l.
Proof.
  induction l as [|x l IH]; simpl; auto.
  destruct (g x); simpl; [destruct (f x)|]; now rewrite IH.
Qed.

(** ** The ATP and kinase conformations notebook *)

Section KlifsFacts.
Import Klifs.

(** *** The three filters *)

Lemma filter_ATP_In t r : In r (filter_ATP t) <-> In r t /\ ligand r = Str "ATP".
Proof. unfold filter_ATP. now rewrite filter_In, value_eqb_eq. Qed.

Lemma filter_no_allosteric_In t r :
  In r (filter_no_allosteric t) <-> In r t /\ allosteric_ligand r = Int 0.
Proof. unfold filter_no_allosteric. now rewrite filter_In, value_eqb_eq. Qed.

(** In a frame whose rows all hold ATP every PDB group passes the
    single-ligand test. *)
Lemma single_ligand_group_of_ATP t r :
  (forall x, In x t -> ligand x = Str "ATP") -> In r t ->
  single_ligand (group string_dec pdb t (pdb r)) = true.
Proof.
  intros Hall Hr. unfold single_ligand, ligand_set.
  rewrite (nodup_constant value_eq_dec (Str "ATP")); auto.
  - assert (Hg : In r (group string_dec pdb t (pdb r))) by now apply group_In.
    destruct (group string_dec pdb t (pdb r)); [destruct Hg | discriminate].
  - intros v Hv. apply in_map_iff in Hv. destruct Hv as (x & <- & Hx).
    apply group_In in Hx. apply Hall. tauto.
Qed.

Lemma single_orthosteric_of_ATP_frame (t : table) :
  (forall x, In x t -> ligand x = Str "ATP") -> filter_single_orthosteric t = t.
Proof.
  intro Hall. unfold filter_single_orthosteric, groupby_filter.
  apply filter_all. intros r Hr.
  now apply single_ligand_group_of_ATP.
Qed.

Lemma filter_ATP_holds_ATP (t : table) x : In x (filter_ATP t) -> ligand x = Str "ATP".
Proof. intro H. now apply filter_ATP_In in H. Qed.

(** C8: after the [ligand == "ATP"] mask, the group filter that keeps the PDB
    entries with one distinct ligand removes nothing: the two filters
    together are the ATP mask alone, for every table. *)
Theorem single_orthosteric_after_ATP_noop (kinase_df : table) :
  filter_single_orthosteric (filter_ATP kinase_df) = filter_ATP kinase_df.
Proof.
  apply single_orthosteric_of_ATP_frame, filter_ATP_holds_ATP.
Qed.

Lemma retrieve_relevant_In retrieved r :
  In r (retrieve_relevant retrieved) <->
  In r retrieved /\ ligand r = Str "ATP" /\ allosteric_ligand r = Int 0.
Proof.
  unfold retrieve_relevant.
  rewrite (single_orthosteric_of_ATP_frame _ (filter_ATP_holds_ATP retrieved)).
  rewrite filter_no_allosteric_In, filter_ATP_In.
  tauto.
Qed.

(** C1: a PDB entry with ATP in one chain and ADP in another.  Its ATP row
    remains after the three filters although the retrieved rows of its entry
    hold two distinct ligands, so the rows that remain are not just those of
    clean ATP entries. *)
Theorem mixed_entry_survives :
  retrieve_relevant mixed_entry = [r_1atp_A] /\
  ligand_set (group string_dec pdb mixed_entry (pdb r_1atp_A)) = [Str "ATP"; Str "ADP"] /\
  ~ clean_ATP_entry mixed_entry r_1atp_A.
Proof.
  split; [reflexivity|]. split; [reflexivity|].
  intros (_ & H & _). vm_compute in H. discriminate.
Qed.

(** *** DFG values *)

(** C7, as stated, fails: a row with DFG value "out-like" stays in the
    filtered table. *)
Lemma DFG_out_like_remains :
  ~ (forall retrieved : table,
       Forall (fun r => DFG r = "in" \/ DFG r = "out") (kinase_df_final retrieved)).
Proof.
  intro H. specialize (H [r_2y4i]).
  apply Forall_inv in H. destruct H as [H|H]; vm_compute in H; discriminate.
Qed.

(** C7, amended: no row of the filtered table carries the DFG value "na";
    every other value that KLIFS reports stays. *)
Theorem DFG_never_na (retrieved : table) :
  Forall (fun r => DFG r <> "na") (kinase_df_final retrieved).
Proof.
  apply Forall_forall. intros r Hr.
  unfold kinase_df_final, drop_na_DFG in Hr. apply filter_In in Hr.
  destruct Hr as [_ Hr]. apply negb_true_iff, String.eqb_neq in Hr. exact Hr.
Qed.

(** *** Sorting and picking *)

#[local] Instance row_cmp_Comparator : Comparator row_cmp.
Proof.
  unfold row_cmp.
  apply lex_Comparator;
    [ apply descending_Comparator, on_key_Comparator, Qcompare_Comparator | ].
  apply lex_Comparator; [ apply on_key_Comparator, Qcompare_Comparator | ].
  apply lex_Comparator; apply on_key_Comparator, string_compare_Comparator.
Qed.

Lemma string_compare_eq (s t : string) : String.compare s t = Eq <-> s = t.
Proof.
  split; [apply String.compare_eq_iff|].
  intros ->. apply (cmp_refl String.compare).
Qed.

(** [better] is the strict order that [sort_values] sorts by. *)
Lemma better_row_cmp (r' r : row) : better r' r <-> row_cmp r' r = Lt.
Proof.
  unfold better, row_cmp, lex_cmp, descending, on_key, lex.
  rewrite Qlt_alt, (Qeq_alt (quality_score r')), Qlt_alt,
    (Qeq_alt (resolution r')), <- string_compare_eq.
  rewrite (cmp_antisym (cmp:=Qcompare) (quality_score r) (quality_score r')).
  destruct (Qcompare (quality_score r) (quality_score r'));
    destruct (Qcompare (resolution r') (resolution r));
    destruct (String.compare (alt r') (alt r)); simpl;
    intuition congruence.
Qed.

Lemma same_sort_keys_row_cmp (r r' : row) : same_sort_keys r r' <-> row_cmp r r' = Eq.
Proof.
  unfold same_sort_keys, row_cmp, lex_cmp, descending, on_key, lex.
  rewrite !Qeq_alt, <- !string_compare_eq.
  rewrite (cmp_antisym (cmp:=Qcompare) (quality_score r) (quality_score r')).
  destruct (Qcompare (quality_score r) (quality_score r'));
    destruct (Qcompare (resolution r) (resolution r'));
    destruct (String.compare (alt r) (alt r')); simpl;
    intuition congruence.
Qed.

Lemma pick_least t r :
  In r (pick_representative t) ->
  In r t /\ forall r', In r' t -> pdb r' = pdb r -> ~ better r' r.
Proof.
  intro H. apply sorted_head_least in H; [|exact row_cmp_Comparator].
  destruct H as [Hin Hmin]. split; auto.
  intros r' Hr' Hk Hb. apply better_row_cmp in Hb.
  apply (Hmin r' Hr' Hk). now apply (cmp_gt_lt row_cmp).
Qed.

Lemma pick_covers t r :
  In r t -> exists r0, In r0 (pick_representative t) /\ pdb r0 = pdb r.
Proof. apply sorted_head_covers. Qed.

Lemma pick_NoDup t : NoDup (map pdb (pick_representative t)).
Proof. apply cumcount_head_NoDup. Qed.

Example retrieve_relevant_sample :
  retrieve_relevant sample =
  [r_1atp_B; r_3gni; r_1atp_A; r_2y4i; r_2cch; r_2cch_alt; r_3qam].
Proof. reflexivity. Qed.

Example pick_representative_sample :
  pick_representative (retrieve_relevant sample) =
  [r_3qam; r_1atp_A; r_2cch_alt; r_3gni; r_2y4i].
Proof. reflexivity. Qed.

Example processed_sample : processed sample = [r_3qam; r_1atp_A; r_2cch_alt].
Proof. reflexivity. Qed.

(** Rows that tie on every key keep their frame order, so the pick among
    them is the one that comes first in the frame. *)
Example pick_among_ties :
  pick_representative [r_4fg8_first; r_4fg8_second] = [r_4fg8_first] /\
  pick_representative [r_4fg8_second; r_4fg8_first] = [r_4fg8_second].
Proof. split; reflexivity. Qed.

(** C2: sorting and taking the head of every PDB group leaves exactly one
    row per PDB identifier of the table, and the row left for an identifier
    is a row of the table that no row of its group betters: none has a
    higher quality score, or the same score and a lower resolution, or the
    same of both and a smaller alt, or the same of all three and a smaller
    chain. *)
Theorem pick_representative_optimal (kinase_df : table) :
  NoDup (map pdb (pick_representative kinase_df)) /\
  (forall p, In p (map pdb (pick_representative kinase_df)) <->
             In p (map pdb kinase_df)) /\
  Forall (fun r => In r kinase_df /\
                   Forall (fun r' => pdb r' = pdb r -> ~ better r' r) kinase_df)
    (pick_representative kinase_df).
Proof.
  split; [apply pick_NoDup|]. split.
  - intro p. rewrite !in_map_iff. split; intros (r & <- & Hr).
    + exists r. split; auto. now apply pick_least in Hr.
    + destruct (pick_covers _ _ Hr) as (r0 & H0 & Hk). eauto.
  - apply Forall_forall. intros r Hr. apply pick_least in Hr.
    destruct Hr as [Hin Hmin]. split; auto.
    apply Forall_forall. auto.
Qed.

(** *** Frame order *)

Lemma no_ties_eq t r r' :
  no_ties t -> In r t -> In r' t -> pdb r = pdb r' -> row_cmp r r' = Eq -> r = r'.
Proof.
  intros Ht Hr Hr' Hk Hc.
  destruct (ForallOrdPairs_In Ht _ _ Hr Hr') as [H|[H|H]]; auto; exfalso.
  - apply (H Hk). now apply same_sort_keys_row_cmp.
  - apply H; auto. apply same_sort_keys_row_cmp. now apply (cmp_eq_sym row_cmp).
Qed.

Lemma least_unique r r0 :
  ~ better r0 r -> ~ better r r0 -> row_cmp r r0 = Eq.
Proof.
  rewrite !better_row_cmp. intros H1 H2.
  destruct (row_cmp r r0) eqn:E; auto.
  - congruence.
  - apply (cmp_gt_lt row_cmp) in E. congruence.
Qed.

Lemma pick_permuted t1 t2 r :
  Permutation t1 t2 -> no_ties t1 ->
  In r (pick_representative t1) -> In r (pick_representative t2).
Proof.
  intros Hp Ht Hr. apply pick_least in Hr. destruct Hr as [Hin Hmin].
  destruct (pick_covers t2 r (Permutation_in _ Hp Hin)) as (r0 & H0 & Hk).
  pose proof H0 as H0'. apply pick_least in H0'. destruct H0' as [Hin0 Hmin0].
  assert (Hin0' : In r0 t1) by (eapply Permutation_in; [symmetry|]; eauto).
  assert (r = r0) as ->; auto.
  apply (no_ties_eq t1); auto.
  apply least_unique.
  - now apply Hmin.
  - apply Hmin0; auto. eapply Permutation_in; eauto.
Qed.

Lemma pick_permuted_back t1 t2 r :
  Permutation t1 t2 -> no_ties t1 ->
  In r (pick_representative t2) -> In r (pick_representative t1).
Proof.
  intros Hp Ht Hr. apply pick_least in Hr. destruct Hr as [Hin Hmin].
  assert (Hin1 : In r t1) by (eapply Permutation_in; [symmetry|]; eauto).
  destruct (pick_covers t1 r Hin1) as (r0 & H0 & Hk).
  pose proof H0 as H0'. apply pick_least in H0'. destruct H0' as [Hin0 Hmin0].
  assert (r0 = r) as ->; auto.
  apply (no_ties_eq t1); auto.
  apply least_unique.
  - now apply Hmin0.
  - apply Hmin; auto. eapply Permutation_in; eauto.
Qed.

Lemma find_by_pdb (l : table) r :
  NoDup (map pdb l) -> In r l ->
  find (fun x => String.eqb (pdb x) (pdb r)) l = Some r.
Proof.
  intros Hn Hr.
  destruct (find (fun x => String.eqb (pdb x) (pdb r)) l) as [x|] eqn:E.
  - apply find_some in E. destruct E as [Hx E]. apply String.eqb_eq in E.
    f_equal. eapply NoDup_key_inj; eauto.
  - eapply find_none in E; eauto. rewrite String.eqb_refl in E. discriminate.
Qed.

(** C9: the row picked for a PDB identifier does not depend on the order of
    the rows.  For two frames with the same rows in different orders, and no
    two rows of one PDB group agreeing on all four sort keys, the pick for
    every PDB identifier is the same row. *)
Theorem representative_order_independent (t1 t2 : table) :
  Permutation t1 t2 -> no_ties t1 ->
  forall p, representative t1 p = representative t2 p.
Proof.
  intros Hp Ht p. unfold representative.
  destruct (find (fun r => String.eqb (pdb r) p) (pick_representative t1))
    as [r|] eqn:E1.
  - apply find_some in E1. destruct E1 as [Hr Hk].
    apply String.eqb_eq in Hk. subst p. symmetry.
    apply find_by_pdb; [apply pick_NoDup|]. eapply pick_permuted; eauto.
  - destruct (find (fun r => String.eqb (pdb r) p) (pick_representative t2))
      as [r|] eqn:E2; auto.
    apply find_some in E2. destruct E2 as [Hr Hk].
    eapply find_none in E1; [|eapply pick_permuted_back; eauto].
    congruence.
Qed.

Ltac untie :=
  let Hk := fresh "Hk" in
  let Hq := fresh "Hq" in
  let Hr := fresh "Hr" in
  let Ha := fresh "Ha" in
  let Hc := fresh "Hc" in
  intros Hk (Hq & Hr & Ha & Hc);
  first [ vm_compute in Hk; discriminate Hk
        | vm_compute in Hq; discriminate Hq
        | vm_compute in Hr; discriminate Hr
        | vm_compute in Ha; discriminate Ha
        | vm_compute in Hc; discriminate Hc ].

(** The sample frame has no ties; read backwards it yields the same pick. *)
Lemma representative_order_independent_witness :
  Permutation untied (rev untied) /\ no_ties untied /\
  representative untied "1atp" = representative (rev untied) "1atp".
Proof.
  assert (Hp : Permutation untied (rev untied)) by apply Permutation_rev.
  assert (Ht : no_ties untied).
  { unfold no_ties, untied. repeat constructor; untie. }
  split; [exact Hp|]. split; [exact Ht|].
  exact (representative_order_independent untied (rev untied) Hp Ht "1atp").
Defined.

(** *** Running a cell again, and what the cells print *)

Lemma retrieve_relevant_as_mask (t : table) :
  retrieve_relevant t =
  filter (fun r => value_eqb (ligand r) (Str "ATP") &&
                   value_eqb (allosteric_ligand r) (Int 0)) t.
Proof.
  unfold retrieve_relevant.
  rewrite (single_orthosteric_of_ATP_frame _ (filter_ATP_holds_ATP t)).
  unfold filter_no_allosteric, filter_ATP. apply filter_filter.
Qed.

(** X1: the three filter cells together are one boolean mask, ligand ==
    "ATP" and allosteric_ligand == 0, applied to the retrieved frame in
    frame order; running the three cells a second time changes nothing. *)
Theorem retrieve_relevant_one_mask (kinase_df : table) :
  retrieve_relevant kinase_df =
    filter (fun r => value_eqb (ligand r) (Str "ATP") &&
                     value_eqb (allosteric_ligand r) (Int 0)) kinase_df /\
  retrieve_relevant (retrieve_relevant kinase_df) = retrieve_relevant kinase_df.
Proof.
  split; [apply retrieve_relevant_as_mask|].
  rewrite (retrieve_relevant_as_mask (retrieve_relevant kinase_df)).
  rewrite retrieve_relevant_as_mask, filter_filter.
  apply filter_ext. intro r.
  destruct (value_eqb (ligand r) (Str "ATP") &&
            value_eqb (allosteric_ligand r) (Int 0)); reflexivity.
Qed.

Lemma PDB_entries_le_KLIFS (t : table) :
  (number_of_PDB_entries t <= number_of_KLIFS_entries t)%nat.
Proof.
  unfold number_of_PDB_entries, number_of_KLIFS_entries.
  rewrite <- (length_map pdb t).
  apply NoDup_incl_length; [apply NoDup_nodup|].
  intros p Hp. now apply nodup_In in Hp.
Qed.

Lemma PDB_entries_mask (f : row -> bool) (t : table) :
  (number_of_PDB_entries (filter f t) <= number_of_PDB_entries t)%nat.
Proof.
  unfold number_of_PDB_entries.
  apply NoDup_incl_length; [apply NoDup_nodup|].
  intros p Hp. apply nodup_In in Hp. apply nodup_In.
  apply in_map_iff in Hp. destruct Hp as (r & <- & Hr).
  apply filter_In in Hr. apply in_map. tauto.
Qed.

(** X2: the two counts printed after each filter cell never grow from one
    cell to the next, and a frame never has more PDB entries than KLIFS
    entries. *)
Theorem printed_counts_never_grow (kinase_df : table) :
  let atp := filter_ATP kinase_df in
  let single := filter_single_orthosteric atp in
  let clean := filter_no_allosteric single in
  (number_of_PDB_entries clean <= number_of_PDB_entries single)%nat /\
  (number_of_PDB_entries single <= number_of_PDB_entries atp)%nat /\
  (number_of_PDB_entries atp <= number_of_PDB_entries kinase_df)%nat /\
  (number_of_KLIFS_entries clean <= number_of_KLIFS_entries single)%nat /\
  (number_of_KLIFS_entries single <= number_of_KLIFS_entries atp)%nat /\
  (number_of_KLIFS_entries atp <= number_of_KLIFS_entries kinase_df)%nat /\
  (number_of_PDB_entries kinase_df <= number_of_KLIFS_entries kinase_df)%nat.
Proof.
  cbv zeta.
  repeat split;
    first [ apply PDB_entries_mask | apply filter_length_le
          | apply PDB_entries_le_KLIFS ].
Qed.

Lemma pick_pdbs t p :
  In p (map pdb (pick_representative t)) <-> In p (map pdb t).
Proof.
  rewrite !in_map_iff. split; intros (r & <- & Hr).
  - exists r. split; auto. now apply pick_least in Hr.
  - destruct (pick_covers _ _ Hr) as (r0 & H0 & Hk). eauto.
Qed.

(** X3: after the sort and [groupby('pdb').head(1)] the two printed counts
    are equal, and both are the number of PDB entries the frame had before:
    the cell drops rows, never a PDB entry. *)
Theorem pick_keeps_every_PDB_entry (kinase_df : table) :
  number_of_PDB_entries (pick_representative kinase_df) =
    number_of_PDB_entries kinase_df /\
  number_of_KLIFS_entries (pick_representative kinase_df) =
    number_of_PDB_entries kinase_df.
Proof.
  assert (H : number_of_KLIFS_entries (pick_representative kinase_df) =
              number_of_PDB_entries kinase_df).
  { unfold number_of_KLIFS_entries, number_of_PDB_entries.
    rewrite <- (length_map pdb (pick_representative kinase_df)).
    apply Permutation_length, NoDup_Permutation.
    - apply pick_NoDup.
    - apply NoDup_nodup.
    - intro p. rewrite nodup_In. apply pick_pdbs. }
  split; auto. rewrite <- H.
  unfold number_of_KLIFS_entries, number_of_PDB_entries.
  rewrite nodup_fixed_point by apply pick_NoDup. apply length_map.
Qed.

Lemma pick_sorted t : StronglySorted (cmp_le row_cmp) (pick_representative t).
Proof. apply cumcount_head_sorted, (sort_values_sorted row_cmp). Qed.

(** X4: running the sort-and-head cell on its own result gives the same
    frame, row for row. *)
Theorem pick_representative_idempotent (kinase_df : table) :
  pick_representative (pick_representative kinase_df) =
  pick_representative kinase_df.
Proof.
  unfold pick_representative at 1.
  rewrite (sort_values_sorted_id row_cmp) by apply pick_sorted.
  apply cumcount_head_distinct; [apply pick_NoDup | auto].
Qed.

(** X5: the sort is stable, so a boolean mask can be taken before or after
    [sort_values]: the same rows come out in the same order. *)
Theorem mask_commutes_with_sort (f : row -> bool) (kinase_df : table) :
  filter f (sort_values row_cmp kinase_df) =
  sort_values row_cmp (filter f kinase_df).
Proof. apply (filter_sort_values row_cmp). Qed.

Lemma pdb_eqb_key_is p r :
  String.eqb (pdb r) p = key_is string_dec pdb p r.
Proof.
  unfold key_is. destruct (string_dec (pdb r) p) as [E|E].
  - now apply String.eqb_eq.
  - now apply String.eqb_neq.
Qed.

Lemma find_same {A : Type} (f g : A -> bool) (l : list A) :
  (forall x, f x = g x) -> find f l = find g l.
Proof.
  intro H. induction l as [|x l IH]; simpl; auto. now rewrite H, IH.
Qed.

Lemma representative_group_head t p :
  representative t p = hd_error (sort_values row_cmp (group string_dec pdb t p)).
Proof.
  unfold representative, pick_representative, groupby_head, group.
  rewrite (find_same _ (key_is string_dec pdb p)) by (intro; apply pdb_eqb_key_is).
  rewrite find_cumcount_head by (simpl; tauto).
  rewrite find_hd_filter. f_equal. apply (filter_sort_values row_cmp).
Qed.

(** X6: the pick works group by group: the row picked for a PDB identifier
    is the first row of that identifier's own rows once they are sorted, and
    there is none exactly when the frame has no row with that identifier. *)
Theorem representative_is_group_head (kinase_df : table) (p : string) :
  representative kinase_df p =
    hd_error (sort_values row_cmp (group string_dec pdb kinase_df p)) /\
  (representative kinase_df p = None <-> ~ In p (map pdb kinase_df)).
Proof.
  split; [apply representative_group_head|].
  unfold representative. split.
  - intros H Hp. apply pick_pdbs in Hp. apply in_map_iff in Hp.
    destruct Hp as (r & <- & Hr).
    eapply find_none in H; eauto. rewrite String.eqb_refl in H. discriminate.
  - intro Hp.
    destruct (find (fun r => String.eqb (pdb r) p) (pick_representative kinase_df))
      as [r|] eqn:E; auto.
    apply find_some in E. destruct E as [Hr E]. apply String.eqb_eq in E.
    exfalso. apply Hp. apply pick_pdbs. rewrite <- E. now apply in_map.
Qed.

(** X7: a row the notebook keeps, by picking first and dropping DFG 'na'
    afterwards, is the row that dropping first and picking afterwards would
    choose for its PDB entry. *)
Theorem drop_na_after_pick_agrees (kinase_df : table) :
  Forall (fun r => In r (pick_representative (drop_na_DFG kinase_df)))
    (drop_na_DFG (pick_representative kinase_df)).
Proof.
  apply Forall_forall. intros r Hr.
  unfold drop_na_DFG at 1 in Hr. apply filter_In in Hr. destruct Hr as [Hr Hd].
  pose proof (find_by_pdb _ r (pick_NoDup kinase_df) Hr) as Hrep.
  fold (representative kinase_df (pdb r)) in Hrep.
  rewrite representative_group_head in Hrep.
  assert (H : representative (drop_na_DFG kinase_df) (pdb r) = Some r).
  { rewrite representative_group_head.
    assert (E : group string_dec pdb (drop_na_DFG kinase_df) (pdb r) =
                drop_na_DFG (group string_dec pdb kinase_df (pdb r))).
    { unfold group, drop_na_DFG. rewrite !filter_filter.
      apply filter_ext. intro x. apply andb_comm. }
    rewrite E. unfold drop_na_DFG at 1.
    rewrite <- (filter_sort_values row_cmp).
    destruct (sort_values row_cmp (group string_dec pdb kinase_df (pdb r)))
      as [|x l]; simpl in Hrep; [discriminate|].
    injection Hrep as ->. simpl. now rewrite Hd. }
  unfold representative in H. apply find_some in H. tauto.
Qed.

(** The other way round it fails: an entry whose best chain has no DFG
    value is dropped although another of its chains has one. *)
Example pick_after_drop_na_keeps_more :
  drop_na_DFG (pick_representative [r_3gni; r_3gni_B]) = [] /\
  pick_representative (drop_na_DFG [r_3gni; r_3gni_B]) = [r_3gni_B].
Proof. split; reflexivity. Qed.

(** X8: the masks of section 2 split the frame.  The PDB identifiers listed
    for DFG 'na' and those kept by DFG != 'na' are together the picked PDB
    identifiers, each once; so are the identifiers listed for aC_helix other
    than "in" and those of the rows the loops go through. *)
Theorem section_2_masks_split (retrieved : table) :
  let picked := pick_representative (retrieve_relevant retrieved) in
  Permutation (na_DFG_pdbs picked ++ map pdb (drop_na_DFG picked)) (map pdb picked) /\
  NoDup (na_DFG_pdbs picked ++ map pdb (drop_na_DFG picked)) /\
  Permutation (map pdb (processed retrieved) ++
               aC_helix_not_in_pdbs (kinase_df_final retrieved))
    (map pdb (kinase_df_final retrieved)) /\
  NoDup (map pdb (processed retrieved) ++
         aC_helix_not_in_pdbs (kinase_df_final retrieved)).
Proof.
  cbv zeta.
  assert (H1 : Permutation
                 (na_DFG_pdbs (pick_representative (retrieve_relevant retrieved)) ++
                  map pdb (drop_na_DFG (pick_representative (retrieve_relevant retrieved))))
                 (map pdb (pick_representative (retrieve_relevant retrieved)))).
  { unfold na_DFG_pdbs, drop_na_DFG. rewrite <- map_app.
    apply Permutation_map, mask_partition. }
  assert (H2 : Permutation
                 (map pdb (processed retrieved) ++
                  aC_helix_not_in_pdbs (kinase_df_final retrieved))
                 (map pdb (kinase_df_final retrieved))).
  { unfold aC_helix_not_in_pdbs, processed, aC_helix_in. rewrite <- map_app.
    apply Permutation_map, mask_partition. }
  repeat split; auto.
  - eapply Permutation_NoDup; [symmetry; exact H1 | apply pick_NoDup].
  - eapply Permutation_NoDup; [symmetry; exact H2 |].
    unfold kinase_df_final, drop_na_DFG. apply NoDup_key_filter, pick_NoDup.
Qed.

(** *** The two loops *)

Section CellFacts.
Variables (home : string) (complex_pdb_text : Z -> string) (count_MG : string -> nat).

(** The path of a row's file in [directory], and the text stored there. *)
Let flat (r : row) : string := joinpath (directory home) (pdb_file r).
Let text (r : row) : string := complex_pdb_text (structure_ID r).

Lemma pdb_file_inj r r' : pdb_file r = pdb_file r' -> pdb r = pdb r'.
Proof. unfold pdb_file. apply append_inj_r. Qed.

Lemma flat_inj r r' : flat r = flat r' -> pdb r = pdb r'.
Proof. intro H. apply joinpath_inj in H. now apply pdb_file_inj. Qed.

Lemma save_complexes_written rows d :
  written (save_complexes home complex_pdb_text rows d) = written d ++ map flat rows.
Proof.
  revert d. induction rows as [|r rows IH]; intro d; simpl.
  - now rewrite app_nil_r.
  - rewrite IH. simpl. now rewrite <- app_assoc.
Qed.

Lemma save_complexes_keeps rows d q :
  files d q <> None -> files (save_complexes home complex_pdb_text rows d) q <> None.
Proof.
  revert d. induction rows as [|r rows IH]; intros d H; simpl; auto.
  apply IH. now apply write_text_keeps.
Qed.

Lemma save_complexes_other rows d q :
  (forall r, In r rows -> q <> flat r) ->
  files (save_complexes home complex_pdb_text rows d) q = files d q.
Proof.
  revert d. induction rows as [|r rows IH]; intros d H; simpl; auto.
  rewrite IH by (intros; apply H; simpl; auto).
  apply write_text_other. apply H. simpl. auto.
Qed.

Lemma save_complexes_stored rows d r :
  NoDup (map pdb rows) -> In r rows ->
  files (save_complexes home complex_pdb_text rows d) (flat r) = Some (text r).
Proof.
  revert d. induction rows as [|x rows IH]; intros d Hn Hr; [destruct Hr|].
  inversion Hn as [|? ? Hx Hrows]; subst. simpl.
  destruct Hr as [->|Hr]; auto.
  rewrite save_complexes_other.
  - apply write_text_same.
  - intros r' Hr' E. apply flat_inj in E. apply Hx. rewrite E. now apply in_map.
Qed.

Lemma save_complexes_exists rows d r :
  In r rows -> files (save_complexes home complex_pdb_text rows d) (flat r) <> None.
Proof.
  revert d. induction rows as [|x rows IH]; intros d Hr; [destruct Hr|].
  simpl. destruct Hr as [->|Hr]; auto.
  apply save_complexes_keeps. rewrite write_text_same. discriminate.
Qed.

Lemma processed_In retrieved r :
  In r (processed retrieved) <->
  In r (pick_representative (retrieve_relevant retrieved)) /\
  DFG r <> "na" /\ aC_helix r = "in".
Proof.
  unfold processed, aC_helix_in, kinase_df_final, drop_na_DFG.
  rewrite !filter_In, negb_true_iff, String.eqb_neq, String.eqb_eq. tauto.
Qed.

Lemma processed_NoDup retrieved : NoDup (map pdb (processed retrieved)).
Proof.
  unfold processed, aC_helix_in, kinase_df_final, drop_na_DFG.
  do 2 apply NoDup_key_filter. apply pick_NoDup.
Qed.

(** C5: the first loop writes the file {pdb}.pdb into the kinases/atp
    directory exactly for the PDB identifiers of the rows of the retrieved
    table that pass the three filters and the per-PDB pick, have a DFG value
    other than 'na' and have aC_helix "in". *)
Theorem atp_file_written_iff (retrieved : table) (fs : string -> option string)
  (p : string) :
  In (joinpath (directory home) (p ++ ".pdb"))
     (written (first_cell home complex_pdb_text retrieved fs)) <->
  exists r, In r retrieved /\ pdb r = p /\
            In r (pick_representative (retrieve_relevant retrieved)) /\
            DFG r <> "na" /\ aC_helix r = "in".
Proof.
  unfold first_cell. rewrite save_complexes_written. simpl.
  rewrite in_map_iff. split.
  - intros (r & E & Hr). exists r.
    apply joinpath_inj, append_inj_r in E.
    apply processed_In in Hr. destruct Hr as (Hp & Hd & Ha).
    repeat split; auto.
    apply pick_least in Hp. destruct Hp as [Hp _].
    now apply retrieve_relevant_In in Hp.
  - intros (r & _ & <- & Hr). exists r. split; auto.
    now apply processed_In.
Qed.

(** The bucket directories lie one level below [directory]. *)
Lemma bucket_directories :
  directory_no_mg home = (directory home ++ "/" ++ "no_mg")%string /\
  directory_one_mg home = (directory home ++ "/" ++ "one_mg")%string /\
  directory_two_mg home = (directory home ++ "/" ++ "two_mg")%string /\
  directory_more_mg home = (directory home ++ "/" ++ "more_mg")%string.
Proof.
  unfold directory_no_mg, directory_one_mg, directory_two_mg, directory_more_mg,
    directory, expanduser.
  rewrite !append_assoc. repeat split; reflexivity.
Qed.

Lemma joinpath_below (d sub sub' n n' : string) :
  joinpath (d ++ "/" ++ sub) n = joinpath (d ++ "/" ++ sub') n' ->
  (sub ++ "/" ++ n = sub' ++ "/" ++ n')%string.
Proof.
  unfold joinpath. rewrite !append_assoc. intro H.
  apply append_inj_l in H. simpl in H. injection H as H.
  simpl. exact H.
Qed.

Lemma joinpath_not_below (d sub n n' : string) :
  plain n = true -> joinpath d n <> joinpath (d ++ "/" ++ sub) n'.
Proof.
  unfold joinpath. rewrite !append_assoc. intros Hn H.
  apply append_inj_l in H. simpl in H. injection H as H.
  apply (f_equal plain) in H. rewrite Hn, plain_append in H. simpl in H.
  rewrite andb_false_r in H. discriminate.
Qed.

Lemma bucket_path_pdb r r' x :
  in_bucket_directory home r x -> in_bucket_directory home r' x -> pdb r = pdb r'.
Proof.
  intros H H'.
  destruct bucket_directories as (Eno & Eone & Etwo & Emore).
  unfold in_bucket_directory in H, H'.
  rewrite Eno, Eone, Etwo, Emore in H, H'.
  destruct H as [-> | [-> | [-> | ->]]];
    destruct H' as [H' | [H' | [H' | H']]];
    apply joinpath_below in H'; simpl in H';
    first [ discriminate H'
          | injection H' as H'; now apply pdb_file_inj in H' ].
Qed.

Lemma flat_not_bucket r r' x :
  plain (pdb r) = true -> in_bucket_directory home r' x -> x <> flat r.
Proof.
  intros Hp H E. subst x.
  assert (Hn : plain (pdb_file r) = true).
  { unfold pdb_file. rewrite plain_append, Hp. reflexivity. }
  destruct bucket_directories as (Eno & Eone & Etwo & Emore).
  unfold in_bucket_directory in H. rewrite Eno, Eone, Etwo, Emore in H.
  destruct H as [H | [H | [H | H]]];
    exact (joinpath_not_below _ _ _ _ Hn H).
Qed.

Lemma choose_bucket_path n r b :
  snd (choose_bucket home n r b) = joinpath (bucket_directory home n) (pdb_file r).
Proof.
  unfold choose_bucket.
  destruct n as [|[|[|n]]]; reflexivity.
Qed.

Lemma bucket_directory_cases n r :
  in_bucket_directory home r (joinpath (bucket_directory home n) (pdb_file r)).
Proof.
  unfold in_bucket_directory.
  destruct n as [|[|[|n]]]; simpl; auto.
Qed.

(** The second loop runs to its end when every row's file is there; each
    row makes it write one file, in one of the bucket directories. *)
Lemma split_by_mg_runs rows b d :
  (forall r, In r rows -> files d (flat r) <> None) ->
  exists b' d' l,
    split_by_mg home complex_pdb_text count_MG rows b d = Some (b', d') /\
    written d' = written d ++ l /\
    Forall2 (in_bucket_directory home) rows l.
Proof.
  revert b d. induction rows as [|r rows IH]; intros b d H; simpl.
  - exists b, d, []. rewrite app_nil_r. repeat split. constructor.
  - fold (flat r).
    destruct (files d (flat r)) as [u|] eqn:E;
      [|exfalso; apply (H r); simpl; auto].
    pose proof (choose_bucket_path (count_MG u) r b) as Hpath.
    destruct (choose_bucket home (count_MG u) r b) as [b1 path1].
    simpl in Hpath. subst path1.
    destruct (IH b1 (write_text d (joinpath (bucket_directory home (count_MG u)) (pdb_file r))
                       (complex_pdb_text (structure_ID r))))
      as (b' & d' & l & Hrun & Hw & Hl).
    { intros r' Hr'. apply write_text_keeps. apply H. simpl. auto. }
    exists b', d', (joinpath (bucket_directory home (count_MG u)) (pdb_file r) :: l).
    split; [exact Hrun|]. split.
    + rewrite Hw. simpl. now rewrite <- app_assoc.
    + constructor; auto. apply bucket_directory_cases.
Qed.

Lemma Forall2_NoDup {X Y : Type} (R : X -> Y -> Prop) (key : X -> string)
  (xs : list X) (ys : list Y) :
  (forall x x' y, R x y -> R x' y -> key x = key x') ->
  Forall2 R xs ys -> NoDup (map key xs) -> NoDup ys.
Proof.
  intros HR H. induction H as [|x y xs ys Hxy H IH]; simpl; intro Hn.
  - constructor.
  - inversion Hn as [|? ? Hx Hxs]; subst. constructor; auto.
    intro Hy. apply Hx.
    clear - HR Hxy H Hy. induction H as [|x' y' xs ys Hxy' H IH]; simpl in *.
    + destruct Hy.
    + destruct Hy as [->|Hy]; [left; eapply HR; eauto | right; auto].
Qed.

(** C10: in each of the two loops the paths written are pairwise distinct.
    The picked rows have pairwise distinct PDB identifiers; the first loop
    writes {directory}/{pdb}.pdb for each of its rows; the second loop runs
    to its end and writes, for each of its rows, {pdb}.pdb in one bucket
    directory; neither list of written paths has a repetition. *)
Theorem written_paths_distinct (retrieved : table) (fs : string -> option string) :
  NoDup (map pdb (pick_representative (retrieve_relevant retrieved))) /\
  written (first_cell home complex_pdb_text retrieved fs) =
    map (fun r => joinpath (directory home) (pdb r ++ ".pdb")) (processed retrieved) /\
  NoDup (written (first_cell home complex_pdb_text retrieved fs)) /\
  exists b d,
    second_cell home complex_pdb_text count_MG retrieved fs = Some (b, d) /\
    Forall2 (in_bucket_directory home) (processed retrieved) (written d) /\
    NoDup (written d).
Proof.
  split; [apply pick_NoDup|].
  split; [unfold first_cell; now rewrite save_complexes_written|].
  split.
  - unfold first_cell. rewrite save_complexes_written. simpl.
    apply (Forall2_NoDup (fun r y => y = flat r) pdb (processed retrieved)).
    + intros x x' y -> E. now apply flat_inj.
    + clear. induction (processed retrieved); simpl; constructor; auto.
    + apply processed_NoDup.
  - unfold second_cell.
    destruct (split_by_mg_runs (processed retrieved) empty_buckets
                (mount (files (first_cell home complex_pdb_text retrieved fs))))
      as (b & d & l & Hrun & Hw & Hl).
    { intros r Hr. simpl. unfold first_cell. now apply save_complexes_exists. }
    simpl in Hw. subst l. exists b, d. repeat split; auto.
    eapply Forall2_NoDup; [| exact Hl | apply processed_NoDup].
    intros x x' y. apply bucket_path_pdb.
Qed.

(** *** Buckets *)

(** The number of Mg atoms counted for a row whose own file is read. *)
Let num_mg (r : row) : nat := count_MG (text r).

Lemma choose_bucket_lists n r b :
  let b1 := fst (choose_bucket home n r b) in
  no_mg b1 = no_mg b ++ (if (n =? 0)%nat then [pdb r] else []) /\
  one_mg b1 = one_mg b ++ (if (n =? 1)%nat then [pdb r] else []) /\
  two_mg b1 = two_mg b ++ (if (n =? 2)%nat then [pdb r] else []) /\
  more_mg b1 = more_mg b ++ (if (2 <? n)%nat then [pdb r] else []).
Proof.
  unfold choose_bucket.
  destruct n as [|[|[|n]]]; simpl; rewrite ?app_nil_r; repeat split; auto.
Qed.

Lemma map_filter_cons (f : row -> bool) (acc : list string) x rows :
  (acc ++ (if f x then [pdb x] else [])) ++ map pdb (filter f rows) =
  acc ++ map pdb (filter f (x :: rows)).
Proof. simpl. destruct (f x); simpl; now rewrite <- app_assoc. Qed.

(** What the second loop leaves behind when every row finds its own file:
    the four lists grow by the PDB identifiers of the rows with 0, 1, 2 and
    more Mg atoms, every row's text is in its bucket directory, and no other
    path is touched. *)
Lemma split_by_mg_buckets rows :
  NoDup (map pdb rows) ->
  (forall r, In r rows -> plain (pdb r) = true) ->
  forall b d,
  (forall r, In r rows -> files d (flat r) = Some (text r)) ->
  exists b' d',
    split_by_mg home complex_pdb_text count_MG rows b d = Some (b', d') /\
    no_mg b' = no_mg b ++ map pdb (filter (fun r => (num_mg r =? 0)%nat) rows) /\
    one_mg b' = one_mg b ++ map pdb (filter (fun r => (num_mg r =? 1)%nat) rows) /\
    two_mg b' = two_mg b ++ map pdb (filter (fun r => (num_mg r =? 2)%nat) rows) /\
    more_mg b' = more_mg b ++ map pdb (filter (fun r => (2 <? num_mg r)%nat) rows) /\
    (forall r, In r rows ->
       files d' (joinpath (bucket_directory home (num_mg r)) (pdb_file r)) = Some (text r)) /\
    (forall q, (forall r, In r rows -> ~ in_bucket_directory home r q) ->
       files d' q = files d q).
Proof.
  induction rows as [|x rows IH]; intros Hn Hp b d Hd.
  - exists b, d. simpl. rewrite !app_nil_r. repeat split; auto. intros r [].
  - inversion Hn as [|? ? Hx Hrows]; subst.
    simpl. fold (flat x). rewrite (Hd x) by (simpl; auto).
    fold (text x). fold (num_mg x).
    pose proof (choose_bucket_path (num_mg x) x b) as Hpath.
    pose proof (choose_bucket_lists (num_mg x) x b) as Hlists.
    destruct (choose_bucket home (num_mg x) x b) as [b1 p1].
    simpl in Hpath, Hlists. destruct Hlists as (L0 & L1 & L2 & L3).
    assert (Hb : in_bucket_directory home x p1).
    { subst p1. apply bucket_directory_cases. }
    destruct (IH Hrows (fun r Hr => Hp r (or_intror Hr)) b1 (write_text d p1 (text x)))
      as (b' & d' & Hrun & R0 & R1 & R2 & R3 & Hfiles & Hframe).
    { intros r Hr. rewrite write_text_other.
      - apply Hd. simpl. auto.
      - intro E. eapply flat_not_bucket; [| exact Hb | symmetry; exact E].
        apply Hp. simpl. auto. }
    exists b', d'. split; [exact Hrun|].
    rewrite R0, R1, R2, R3, L0, L1, L2, L3.
    rewrite (map_filter_cons (fun r => (num_mg r =? 0)%nat)),
      (map_filter_cons (fun r => (num_mg r =? 1)%nat)),
      (map_filter_cons (fun r => (num_mg r =? 2)%nat)),
      (map_filter_cons (fun r => (2 <? num_mg r)%nat)).
    repeat split; auto.
    + intros r [<-|Hr]; auto.
      rewrite <- Hpath, Hframe.
      * apply write_text_same.
      * intros r Hr Hb'. apply Hx.
        rewrite (bucket_path_pdb _ _ _ Hb Hb'). now apply in_map.
    + intros q Hq. rewrite Hframe.
      * apply write_text_other. intros ->. apply (Hq x); simpl; auto.
      * intros r Hr. apply Hq. simpl. auto.
Qed.

Lemma In_map_filter (f : row -> bool) rows r :
  NoDup (map pdb rows) -> In r rows ->
  In (pdb r) (map pdb (filter f rows)) <-> f r = true.
Proof.
  intros Hn Hr. rewrite in_map_iff. split.
  - intros (r' & E & Hr'). apply filter_In in Hr'. destruct Hr' as [Hin Hf].
    now rewrite <- (NoDup_key_inj pdb rows r' r Hn Hin Hr E).
  - intro Hf. exists r. split; auto. now apply filter_In.
Qed.

Lemma buckets_permutation rows :
  Permutation
    (map pdb (filter (fun r => (num_mg r =? 0)%nat) rows) ++
     map pdb (filter (fun r => (num_mg r =? 1)%nat) rows) ++
     map pdb (filter (fun r => (num_mg r =? 2)%nat) rows) ++
     map pdb (filter (fun r => (2 <? num_mg r)%nat) rows))
    (map pdb rows).
Proof.
  induction rows as [|x rows IH]; simpl; auto.
  destruct (num_mg x) as [|[|[|n]]]; simpl.
  - now constructor.
  - symmetry. apply Permutation_cons_app. now symmetry.
  - symmetry. rewrite app_assoc. apply Permutation_cons_app.
    rewrite <- app_assoc. now symmetry.
  - symmetry. rewrite 2!app_assoc. apply Permutation_cons_app.
    rewrite <- 2!app_assoc. now symmetry.
Qed.

Lemma processed_incl retrieved r : In r (processed retrieved) -> In r retrieved.
Proof.
  intro H. apply processed_In in H. destruct H as (H & _).
  apply pick_least in H. destruct H as [H _].
  now apply retrieve_relevant_In in H.
Qed.

(** C3: the second loop, run after the first, goes through every processed
    structure.  With [n] the number of Mg atoms counted in the structure's
    file, its PDB identifier is in [no_mg], [one_mg], [two_mg] or [more_mg]
    exactly when [n] is 0, 1, 2 or greater than 2, and the text KLIFS
    returns for it is stored as {pdb}.pdb in the directory of that bucket.
    The four lists together hold the processed structures, each once.
    PDB identifiers are taken to hold no path separator. *)
Theorem mg_bucketing (retrieved : table) (fs : string -> option string) :
  plain_pdb_ids retrieved ->
  exists b d,
    second_cell home complex_pdb_text count_MG retrieved fs = Some (b, d) /\
    Forall (fun r =>
              let n := count_MG (complex_pdb_text (structure_ID r)) in
              (In (pdb r) (no_mg b) <-> n = 0%nat) /\
              (In (pdb r) (one_mg b) <-> n = 1%nat) /\
              (In (pdb r) (two_mg b) <-> n = 2%nat) /\
              (In (pdb r) (more_mg b) <-> (2 < n)%nat) /\
              files d (joinpath (bucket_directory home n) (pdb r ++ ".pdb")) =
                Some (complex_pdb_text (structure_ID r)))
      (processed retrieved) /\
    NoDup (no_mg b ++ one_mg b ++ two_mg b ++ more_mg b) /\
    Permutation (no_mg b ++ one_mg b ++ two_mg b ++ more_mg b)
      (map pdb (processed retrieved)).
Proof.
  intro Hplain. unfold second_cell.
  pose proof (processed_NoDup retrieved) as Hn.
  destruct (split_by_mg_buckets (processed retrieved) Hn) with
    (b := empty_buckets)
    (d := mount (files (first_cell home complex_pdb_text retrieved fs)))
    as (b & d & Hrun & R0 & R1 & R2 & R3 & Hfiles & _).
  { intros r Hr. unfold plain_pdb_ids in Hplain. rewrite Forall_forall in Hplain.
    apply Hplain. now apply processed_incl in Hr. }
  { intros r Hr. simpl. unfold first_cell. now apply save_complexes_stored. }
  simpl in R0, R1, R2, R3.
  assert (Hperm : Permutation (no_mg b ++ one_mg b ++ two_mg b ++ more_mg b)
                    (map pdb (processed retrieved))).
  { rewrite R0, R1, R2, R3. apply buckets_permutation. }
  exists b, d. split; [exact Hrun|]. split; [|split; [|exact Hperm]].
  - apply Forall_forall. intros r Hr. cbv zeta.
    fold (text r). fold (num_mg r).
    rewrite R0, R1, R2, R3, !In_map_filter by auto.
    rewrite !Nat.eqb_eq, Nat.ltb_lt.
    repeat split; try tauto.
    now apply Hfiles.
  - eapply Permutation_NoDup; [symmetry; exact Hperm | exact Hn].
Qed.

(** *** More on the two loops *)

(** X9: the first loop stores, for every row it goes through, the text KLIFS
    returns under {directory}/{pdb}.pdb; any path it did not write holds
    what it held before; and running the cell again on the disk it left
    leaves every file as it is. *)
Theorem first_cell_stores_structures (retrieved : table)
  (fs : string -> option string) :
  Forall (fun r =>
            files (first_cell home complex_pdb_text retrieved fs)
              (joinpath (directory home) (pdb r ++ ".pdb")) =
            Some (complex_pdb_text (structure_ID r)))
    (processed retrieved) /\
  (forall q, In q (written (first_cell home complex_pdb_text retrieved fs)) \/
             files (first_cell home complex_pdb_text retrieved fs) q = fs q) /\
  (forall q,
     files (first_cell home complex_pdb_text retrieved
              (files (first_cell home complex_pdb_text retrieved fs))) q =
     files (first_cell home complex_pdb_text retrieved fs) q).
Proof.
  assert (Hstored : forall fs0 r, In r (processed retrieved) ->
            files (first_cell home complex_pdb_text retrieved fs0) (flat r) =
            Some (text r)).
  { intros fs0 r Hr. unfold first_cell.
    apply save_complexes_stored; auto. apply processed_NoDup. }
  assert (Hother : forall fs0 q, ~ In q (map flat (processed retrieved)) ->
            files (first_cell home complex_pdb_text retrieved fs0) q = fs0 q).
  { intros fs0 q Hq. unfold first_cell. rewrite save_complexes_other; auto.
    intros r Hr ->. apply Hq. now apply in_map. }
  split; [|split].
  - apply Forall_forall. intros r Hr. now apply Hstored.
  - intro q. unfold first_cell at 1. rewrite save_complexes_written. simpl.
    destruct (in_dec string_dec q (map flat (processed retrieved))) as [Hq|Hq];
      [left | right]; auto.
  - intro q.
    destruct (in_dec string_dec q (map flat (processed retrieved))) as [Hq|Hq].
    + apply in_map_iff in Hq. destruct Hq as (r & <- & Hr).
      now rewrite !Hstored.
    + now rewrite Hother.
Qed.

(** X10: the second loop stops with an error exactly when the file of one of
    its rows is missing when it starts: no pass of the loop removes or
    creates a file that a later pass reads. *)
Theorem split_by_mg_fails_iff (rows : table) (b : buckets) (d : disk) :
  Forall (fun r => plain (pdb r) = true) rows ->
  split_by_mg home complex_pdb_text count_MG rows b d = None <->
  Exists (fun r => files d (joinpath (directory home) (pdb r ++ ".pdb")) = None) rows.
Proof.
  revert b d. induction rows as [|x rows IH]; intros b d Hp; simpl.
  - split; [discriminate | intro H; inversion H].
  - inversion Hp as [|? ? Hx Hrows]; subst.
    fold (pdb_file x). fold (flat x).
    destruct (files d (flat x)) as [u|] eqn:E.
    + pose proof (choose_bucket_path (count_MG u) x b) as Hpath.
      destruct (choose_bucket home (count_MG u) x b) as [b1 p1].
      simpl in Hpath.
      assert (Hne : forall r, In r rows ->
                joinpath (directory home) (pdb r ++ ".pdb") <> p1).
      { intros r Hr Eq. apply (flat_not_bucket r x p1).
        - rewrite Forall_forall in Hrows. now apply Hrows.
        - subst p1. apply bucket_directory_cases.
        - symmetry. exact Eq. }
      rewrite (IH b1 _ Hrows). rewrite !Exists_exists. split.
      * intros (r & Hr & Hf). exists r. split; [simpl; auto|].
        rewrite write_text_other in Hf by now apply Hne. exact Hf.
      * intros (r & [<-|Hr] & Hf).
        -- unfold flat, pdb_file in E. congruence.
        -- exists r. split; auto.
           rewrite write_text_other by now apply Hne. exact Hf.
    + split; [intros _; now constructor | reflexivity].
Qed.

Lemma Permutation_insert {X : Type} (a c : list X) (x : X) :
  Permutation (a ++ x :: c) ((a ++ c) ++ [x]).
Proof.
  rewrite <- Permutation_middle, <- Permutation_cons_append. reflexivity.
Qed.

Ltac appended a c :=
  match goal with
  | |- Permutation ?L (?R ++ [?x]) =>
      replace L with (a ++ x :: c) by (now rewrite <- ?app_assoc);
      replace R with (a ++ c) by (now rewrite <- ?app_assoc);
      apply Permutation_insert
  end.

Lemma choose_bucket_all n r b :
  Permutation (all_buckets (fst (choose_bucket home n r b)))
    (all_buckets b ++ [pdb r]).
Proof.
  destruct (choose_bucket_lists n r b) as (L0 & L1 & L2 & L3).
  unfold all_buckets. rewrite L0, L1, L2, L3.
  destruct n as [|[|[|n]]]; simpl; rewrite ?app_nil_r.
  - appended (no_mg b) (one_mg b ++ two_mg b ++ more_mg b).
  - appended (no_mg b ++ one_mg b) (two_mg b ++ more_mg b).
  - appended (no_mg b ++ one_mg b ++ two_mg b) (more_mg b).
  - now rewrite <- !app_assoc.
Qed.

Lemma split_by_mg_all rows b d b' d' :
  split_by_mg home complex_pdb_text count_MG rows b d = Some (b', d') ->
  Permutation (all_buckets b') (all_buckets b ++ map pdb rows).
Proof.
  revert b d. induction rows as [|x rows IH]; intros b d H; simpl in H.
  - injection H as <- <-. simpl. now rewrite app_nil_r.
  - destruct (files d (joinpath (directory home) (pdb_file x))) as [u|];
      [|discriminate].
    pose proof (choose_bucket_all (count_MG u) x b) as Hb.
    destruct (choose_bucket home (count_MG u) x b) as [b1 p1]. simpl in Hb.
    apply IH in H. rewrite H, Hb. simpl. now rewrite <- app_assoc.
Qed.

(** X11: whatever the files hold, the second cell, run after the first,
    comes to its end having put every row it went through in one of the
    four lists: the lists together are the PDB identifiers of those rows,
    and the four sizes it prints add up to the number of rows. *)
Theorem bucket_sizes_add_up (retrieved : table) (fs : string -> option string) :
  exists b d,
    second_cell home complex_pdb_text count_MG retrieved fs = Some (b, d) /\
    Permutation (all_buckets b) (map pdb (processed retrieved)) /\
    list_sum (bucket_sizes b) = number_of_KLIFS_entries (processed retrieved).
Proof.
  unfold second_cell.
  destruct (split_by_mg_runs (processed retrieved) empty_buckets
              (mount (files (first_cell home complex_pdb_text retrieved fs))))
    as (b & d & l & Hrun & _).
  { intros r Hr. simpl. unfold first_cell. now apply save_complexes_exists. }
  exists b, d. split; [exact Hrun|].
  apply split_by_mg_all in Hrun. simpl in Hrun.
  split; [exact Hrun|].
  apply Permutation_length in Hrun. rewrite length_map in Hrun.
  unfold number_of_KLIFS_entries. rewrite <- Hrun.
  unfold bucket_sizes, all_buckets. simpl. rewrite !length_app. lia.
Qed.

Lemma in_bucket_directory_dec r q :
  {in_bucket_directory home r q} + {~ in_bucket_directory home r q}.
Proof.
  unfold in_bucket_directory.
  destruct (string_dec q (joinpath (directory_no_mg home) (pdb_file r)));
    [left; tauto|].
  destruct (string_dec q (joinpath (directory_one_mg home) (pdb_file r)));
    [left; tauto|].
  destruct (string_dec q (joinpath (directory_two_mg home) (pdb_file r)));
    [left; tauto|].
  destruct (string_dec q (joinpath (directory_more_mg home) (pdb_file r)));
    [left; tauto|].
  right. tauto.
Qed.

(** X12: the second cell leaves the structure files of the first in place,
    and every path other than a row's file in a bucket directory holds what
    it held before.  PDB identifiers are taken to hold no path separator. *)
Theorem second_cell_keeps_structures (retrieved : table)
  (fs : string -> option string) :
  plain_pdb_ids retrieved ->
  exists b d,
    second_cell home complex_pdb_text count_MG retrieved fs = Some (b, d) /\
    Forall (fun r =>
              files d (joinpath (directory home) (pdb r ++ ".pdb")) =
              Some (complex_pdb_text (structure_ID r)))
      (processed retrieved) /\
    (forall q,
       Exists (fun r => in_bucket_directory home r q) (processed retrieved) \/
       files d q = files (first_cell home complex_pdb_text retrieved fs) q).
Proof.
  intro Hplain. unfold second_cell.
  assert (Hp : forall r, In r (processed retrieved) -> plain (pdb r) = true).
  { intros r Hr. unfold plain_pdb_ids in Hplain. rewrite Forall_forall in Hplain.
    apply Hplain. now apply processed_incl in Hr. }
  assert (Hstored : forall r, In r (processed retrieved) ->
            files (first_cell home complex_pdb_text retrieved fs) (flat r) =
            Some (text r)).
  { intros r Hr. unfold first_cell.
    apply save_complexes_stored; auto. apply processed_NoDup. }
  destruct (split_by_mg_buckets (processed retrieved) (processed_NoDup retrieved) Hp)
    with (b := empty_buckets)
         (d := mount (files (first_cell home complex_pdb_text retrieved fs)))
    as (b & d & Hrun & _ & _ & _ & _ & _ & Hframe).
  { intros r Hr. simpl. now apply Hstored. }
  simpl in Hframe.
  exists b, d. split; [exact Hrun|]. split.
  - apply Forall_forall. intros r Hr.
    fold (pdb_file r). fold (flat r). fold (text r).
    rewrite Hframe; [now apply Hstored|].
    intros r' Hr' Hb. eapply flat_not_bucket; [apply (Hp r Hr) | exact Hb | reflexivity].
  - intro q.
    destruct (Exists_dec (fun r => in_bucket_directory home r q)
                (processed retrieved) (fun r => in_bucket_directory_dec r q))
      as [He|He]; [left; exact He | right].
    apply Hframe. intros r Hr Hb. apply He. apply Exists_exists. eauto.
Qed.

End CellFacts.

(** The second loop on an empty disk: the first row's file is missing. *)
Lemma split_by_mg_fails_iff_witness :
  Forall (fun r => plain (pdb r) = true) (processed sample) /\
  (split_by_mg "/home/david" sample_pdb_text sample_count_MG (processed sample)
     empty_buckets (mount (fun _ => None)) = None <->
   Exists (fun r => files (mount (fun _ => None))
                      (joinpath (directory "/home/david") (pdb r ++ ".pdb")) = None)
     (processed sample)).
Proof.
  assert (H : Forall (fun r => plain (pdb r) = true) (processed sample)).
  { vm_compute. repeat constructor. }
  split; [exact H|].
  exact (split_by_mg_fails_iff "/home/david" sample_pdb_text sample_count_MG
           (processed sample) empty_buckets (mount (fun _ => None)) H).
Defined.

Example second_loop_without_first :
  split_by_mg "/home/david" sample_pdb_text sample_count_MG (processed sample)
    empty_buckets (mount (fun _ => None)) = None.
Proof. reflexivity. Qed.

(** Both cells on the sample table, from an empty disk. *)
Lemma second_cell_keeps_structures_witness :
  plain_pdb_ids sample /\
  exists b d,
    second_cell "/home/david" sample_pdb_text sample_count_MG sample
      (fun _ => None) = Some (b, d) /\
    Forall (fun r =>
              files d (joinpath (directory "/home/david") (pdb r ++ ".pdb")) =
              Some (sample_pdb_text (structure_ID r)))
      (processed sample).
Proof.
  assert (H : plain_pdb_ids sample) by (repeat constructor).
  split; [exact H|].
  destruct (second_cell_keeps_structures "/home/david" sample_pdb_text
              sample_count_MG sample (fun _ => None) H) as (b & d & Hrun & Hkept & _).
  exists b, d. split; [exact Hrun | exact Hkept].
Defined.

(** The cells on the sample table, with a home directory, a stand-in for
    the remote server and one for the atom count. *)
Lemma mg_bucketing_witness :
  plain_pdb_ids sample /\
  exists b d,
    second_cell "/home/david" sample_pdb_text sample_count_MG sample
      (fun _ => None) = Some (b, d).
Proof.
  assert (H : plain_pdb_ids sample) by (repeat constructor).
  split; [exact H|].
  destruct (mg_bucketing "/home/david" sample_pdb_text sample_count_MG sample
              (fun _ => None) H) as (b & d & Hrun & _).
  exists b, d. exact Hrun.
Defined.

Example buckets_of_sample :
  option_map fst
    (second_cell "/home/david" sample_pdb_text sample_count_MG sample (fun _ => None)) =
  Some {| no_mg := ["2cch"]; one_mg := ["3qam"]; two_mg := ["1atp"]; more_mg := [] |}.
Proof. vm_compute. reflexivity. Qed.

End KlifsFacts.

(** ** The ABL1 complex modeling notebook *)

Section DockingFacts.
Import Docking.

Example tkis_keys : keys tkis = tki_names.
Proof. reflexivity. Qed.

Example tki_smiles_eight : List.length tki_smiles = 8%nat /\ NoDup tki_smiles.
Proof.
  split; [reflexivity|].
  unfold tki_smiles. simpl.
  repeat (constructor; [simpl; intuition discriminate|]). constructor.
Qed.

(** The loop never meets a missing key: its result is there for every
    featurizer, and its calls are the eight complexes in dictionary order. *)
Lemma docking_loop_runs (System : Type) (featurize : ProteinLigandComplex -> System) :
  exists st, docking_loop System featurize = Some st /\
             map ligand_names (featurize_calls st) = map (fun k => [k]) tki_names.
Proof. eexists. split; reflexivity. Qed.

(** C6: every pass through the docking loop hands the featurizer a complex
    whose ligand is given by one of the eight SMILES strings of the
    dictionary (axitinib, bosutinib, dasatinib, imatinib, nilotinib,
    ponatinib, erlotinib, gefitinib) and whose protein has the name 'ABL1'
    and klifs_kinase_id 392. *)
Theorem docking_ligands_and_target_fixed
  (System : Type) (featurize : ProteinLigandComplex -> System) :
  keys tkis = tki_names /\
  exists st, docking_loop System featurize = Some st /\
             Forall (fun c => docks_a_tki c /\ targets_ABL1 c) (featurize_calls st).
Proof.
  split; [reflexivity|].
  eexists. split; [reflexivity|].
  simpl. repeat constructor;
    solve [ eexists; split; [reflexivity|]; simpl; tauto
          | eexists; split; [reflexivity|]; split; reflexivity ].
Qed.

(** The loop's variables after the last pass do not tell a run in which
    axitinib failed from one in which nothing did. *)
Lemma outcomes_lost : ~ outcomes_recorded.
Proof.
  intros (recall & H).
  pose proof (H always_passes _ eq_refl) as H1.
  pose proof (H fails_on_axitinib _ eq_refl) as H2.
  vm_compute in H1, H2. rewrite H1 in H2. discriminate H2.
Qed.

(** C4, as stated, fails: the loop records no outcome per call. *)
Lemma once_and_recorded_fails : ~ featurized_once_and_recorded.
Proof. intros [_ H]. exact (outcomes_lost H). Qed.

(** C4, amended: the featurizer is called exactly once for each of the
    eight inhibitors of the dictionary; the result of a call is bound to
    [system], which the next pass overwrites, so the loop ends holding the
    result of the last call alone and keeps no outcome per call. *)
Theorem featurize_once_per_ligand
  (System : Type) (featurize : ProteinLigandComplex -> System) :
  (exists st, docking_loop System featurize = Some st /\
              once_per_ligand (featurize_calls st) /\
              exists c, nth_error (featurize_calls st) 7 = Some c /\
                        system (vars st) = Some (featurize c)) /\
  ~ outcomes_recorded.
Proof.
  split; [|exact outcomes_lost].
  eexists. split; [reflexivity|]. split.
  - split; [reflexivity|]. repeat constructor.
  - eexists. split; reflexivity.
Qed.

(** *** The loop over any dictionary *)

(** The loop of the claims is the [keys()] loop over the notebook's own
    dictionary, and the dictionary of the notebook with water names the
    same inhibitors with the same SMILES strings. *)
Example docking_loop_over_tkis
  (System : Type) (featurize : ProteinLigandComplex -> System) :
  docking_loop System featurize = docking_loop_keys System featurize tkis /\
  Forall2 same_tki tkis tkis_with_water.
Proof. split; [reflexivity|]. repeat constructor. Qed.

Section AnyDictionaryFacts.
Variable System : Type.
Variable featurize : ProteinLigandComplex -> System.

Lemma getitem_In {V : Type} (d : dict V) (k : string) (v : V) :
  NoDup (keys d) -> In (k, v) d -> getitem d k = Some v.
Proof.
  induction d as [|[k' v'] d IH]; simpl; intros Hn H; [destruct H|].
  inversion Hn as [|? ? Hk Hd]; subst.
  destruct H as [H|H].
  - injection H as -> ->. now rewrite String.eqb_refl.
  - destruct (String.eqb k' k) eqn:E; auto.
    apply String.eqb_eq in E. subst k'. exfalso. apply Hk.
    unfold keys. apply in_map_iff. exists (k, v). auto.
Qed.



Lemma for_each_key_fails (d items : dict (dict string)) (st : kernel System) :
  (forall k e, In (k, e) items -> getitem d k = Some e) ->
  for_each_key System featurize d (keys items) st = None <->
  Exists (fun entry => getitem (snd entry) "smiles" = None) items.
Proof.
  revert st. induction items as [|[k e] items IH]; intros st Hd; simpl.
  - split; [discriminate | intro H; inversion H].
  - unfold loop_body_keys. rewrite (Hd k e) by (simpl; auto).
    destruct (getitem e "smiles") as [s|] eqn:E.
    + rewrite IH by (intros k0 e0 H0; apply Hd; simpl; auto).
      split; [intro H; now constructor 2|].
      intro H. inversion H as [? ? H1|? ? H1]; subst; auto.
      simpl in H1. congruence.
    + split; [intros _; now constructor | reflexivity].
Qed.

(** X14: the [keys()] loop stops with a KeyError exactly when some entry of
    the dictionary has no 'smiles' key. *)
Theorem keys_loop_KeyError_iff (d : dict (dict string)) :
  NoDup (keys d) ->
  docking_loop_keys System featurize d = None <->
  Exists (fun entry => getitem (snd entry) "smiles" = None) d.
Proof.
  intro Hn. unfold docking_loop_keys.
  apply for_each_key_fails.
  intros k e Hke. now apply getitem_In.
Qed.

Lemma items_loop_state (flat : dict string) (st : kernel System) :
  let st' := fold_left (fun st item => loop_body_items System featurize item st)
               flat st in
  featurize_calls st' =
    featurize_calls st ++ map (fun item => abl1_complex (fst item) (snd item)) flat /\
  system (vars st') =
    match rev flat with
    | [] => system (vars st)
    | item :: _ => Some (featurize (abl1_complex (fst item) (snd item)))
    end.
Proof.
  cbv zeta. induction flat as [|[k s] flat IH] using rev_ind.
  - simpl. now rewrite app_nil_r.
  - rewrite fold_left_app, rev_app_distr, map_app. simpl.
    destruct IH as [IH _]. rewrite IH. split; [now rewrite <- app_assoc | reflexivity].
Qed.

(** X15: on any dictionary the [items()] loop calls the featurizer once per
    item, in dictionary order, each time with a complex of that item's
    ligand and the protein ABL1, KLIFS kinase 392; it ends with [system]
    bound to the result of the last call, and unbound when the dictionary
    is empty. *)
Theorem items_loop_calls (flat : dict string) :
  let st := docking_loop_items System featurize flat in
  featurize_calls st = map (fun item => abl1_complex (fst item) (snd item)) flat /\
  Forall targets_ABL1 (featurize_calls st) /\
  map ligand_names (featurize_calls st) = map (fun item => [fst item]) flat /\
  system (vars st) = option_map featurize (hd_error (rev (featurize_calls st))).
Proof.
  cbv zeta. unfold docking_loop_items.
  destruct (items_loop_state flat (fresh_kernel System)) as [Hc Hs].
  simpl in Hc. rewrite Hc, Hs. repeat split.
  - apply Forall_forall. intros c Hc'. apply in_map_iff in Hc'.
    destruct Hc' as (item & <- & _).
    eexists. split; [reflexivity|]. split; reflexivity.
  - rewrite map_map. reflexivity.
  - rewrite <- map_rev. destruct (rev flat); reflexivity.
Qed.

End AnyDictionaryFacts.


(** A dictionary whose second entry has no 'smiles' key. *)
Lemma keys_loop_KeyError_iff_witness :
  NoDup (keys tkis_missing_smiles) /\
  (docking_loop_keys bool always_passes tkis_missing_smiles = None <->
   Exists (fun entry => getitem (snd entry) "smiles" = None) tkis_missing_smiles).
Proof.
  assert (Hn : NoDup (keys tkis_missing_smiles)).
  { simpl. repeat (constructor; [simpl; intuition discriminate|]). constructor. }
  split; [exact Hn|].
  exact (keys_loop_KeyError_iff bool always_passes tkis_missing_smiles Hn).
Defined.

Example keys_loop_missing_smiles :
  docking_loop_keys bool always_passes tkis_missing_smiles = None.
Proof. reflexivity. Qed.

End DockingFacts.
